(** * starknet-react: hooks over the Starknet SDK

    A shallow embedding of the hook adapters of [packages/core]
    ([useContractWrite] with its [mutationKey] and [mutationFn],
    [useSwitchNetwork], [useBalance]) together with the two runtime
    components they are plugged into, the mutation runner and the query
    cache.

    JavaScript's [undefined] is [None]; an object used as a record is a
    [Record]; a promise-returning function is a [Task], whose only
    suspension points are the awaits on the wallet's [execute]. *)

From stdpp Require Import base strings list gmap.
From Stdlib Require Import ZArith Lia.

Open Scope string_scope.
Open Scope list_scope.

(** ** JavaScript errors *)

(** An [Error] object: the constructor's name and the message. *)
Record JsError := { err_name : string; err_message : string }.

(** [new Error(message)]. *)
Definition Error (message : string) : JsError :=
  {| err_name := "Error"; err_message := message |}.

(** What the engine raises when a value that is not a function is called,
    as in [switchNetwork(chainId)] with [switchNetwork === undefined]. *)
Definition TypeError_not_a_function (callee : string) : JsError :=
  {| err_name := "TypeError"; err_message := callee +:+ " is not a function" |}.

(** The error class the specification names for a capability that the
    active connector does not have. *)
Definition UnsupportedOperationError (message : string) : JsError :=
  {| err_name := "UnsupportedOperationError"; err_message := message |}.

(** Calling a possibly-undefined function value. *)
Definition js_call {A B : Type} (callee : string) (f : option (A -> JsError + B)) (a : A)
  : JsError + B :=
  match f with
  | Some g => g a
  | None => inl (TypeError_not_a_function callee)
  end.

(** ** The SDK's data ([starknet]) *)

(** A contract ABI is never inspected by the hooks: it is carried by name. *)
Definition Abi := string.

Record Call := {
  contractAddress : string;
  entrypoint : string;
  calldata : list string
}.

Record InvocationsDetails := {
  nonce : option Z;
  maxFee : option Z;
  version : option Z
}.

Record InvokeFunctionResponse := { transaction_hash : string }.

(** The wallet account the hooks talk to.  Its [execute] is the external
    collaborator: a call of it is an [ExecuteRequest] handed to the
    network, and its answer comes back later. *)
Record AccountInterface := { account_address : string }.

(** One call [account.execute(calls, abis, options)]. *)
Record ExecuteRequest := {
  req_account : AccountInterface;
  req_calls : list Call;
  req_abis : option (list Abi);
  req_options : option InvocationsDetails
}.

(** What the network answers to an [execute]: a rejection or the response. *)
Definition ExecuteAnswer : Type := JsError + InvokeFunctionResponse.

(** ** Asynchronous functions *)

(** The body of an [async function]: it either settles without reaching an
    [await] on the network ([throw] gives [inl], [return] gives [inr]), or it
    calls [execute] and continues with the answer. *)
Inductive Task (A : Type) : Type :=
  | Settled (r : JsError + A)
  | Await (req : ExecuteRequest) (k : ExecuteAnswer -> Task A).
Arguments Settled {A} r.
Arguments Await {A} req k.

(** [throw e] inside an async function. *)
Definition throw {A : Type} (e : JsError) : Task A := Settled (inl e).

(** The requests a task hands to the network and what it settles to, when
    the network answers with [answers] in turn; [None] while the task still
    waits for an answer. *)
Fixpoint run_task {A : Type} (t : Task A) (answers : list ExecuteAnswer)
  : list ExecuteRequest * option (JsError + A) :=
  match t with
  | Settled r => ([], Some r)
  | Await req k =>
      match answers with
      | [] => ([req], None)
      | a :: rest => let '(reqs, r) := run_task (k a) rest in (req :: reqs, r)
      end
  end.

(** ** [useContractWrite] (packages/core, hooks) *)

(** Arguments for [useContractWrite]: the variables a caller may pass to
    [write]. *)
Record ContractWriteVariables := {
  var_calls : option (list Call);
  var_abis : option (list Abi);
  var_options : option InvocationsDetails
}.

(** One element of the mutation key:
    [{ entity: "contractWrite", account, calls, abis, options }]. *)
Record MutationKeyEntry := {
  entity : string;
  key_account : option AccountInterface;
  key_calls : option (list Call);
  key_abis : option (list Abi);
  key_options : option InvocationsDetails
}.

(** [mutationKey({ account, calls, abis, options })]: a one-element array. *)
Definition mutationKey (account : option AccountInterface) (calls : option (list Call))
    (abis : option (list Abi)) (options : option InvocationsDetails)
  : list MutationKeyEntry :=
  [ {| entity := "contractWrite"; key_account := account; key_calls := calls;
       key_abis := abis; key_options := options |} ].

(** [mutationFn({ account, calls, abis, options })]: the returned async
    function takes no parameter, so the variables the runner passes to it are
    dropped. *)
Definition mutationFn (account : option AccountInterface) (calls : option (list Call))
    (abis : option (list Abi)) (options : option InvocationsDetails)
  : ContractWriteVariables -> Task InvokeFunctionResponse :=
  fun _ =>
    match account with
    | None => throw (Error "account is required")
    | Some acc =>
        match calls with
        | None => throw (Error "calls are required")
        | Some cs =>
            if Nat.eqb (length cs) 0 then throw (Error "calls are required")
            else
              Await {| req_account := acc; req_calls := cs; req_abis := abis;
                       req_options := options |}
                    (fun answer => Settled answer)
        end
    end.

(** ** The account context *)

(** Modelled from the spec: the Connector capability set of section 3
    ([{id, name, connect(), disconnect(), account(), switchNetwork(chainId)}]);
    the class itself ([./base]) is not among the sources.  Only the members the
    hooks below read are kept.  A connector object that has no
    [switchNetwork] member has [None] there. *)
Record Connector := {
  conn_id : string;
  conn_name : string;
  conn_switchNetwork : option (string -> JsError + unit)
}.

(** The RPC provider ([library]); the hooks read its [chainId]. *)
Record ProviderInterface := { chainId : string }.

(** Modelled from the spec: the Account/Network context of section 2, the
    process-wide state holding the active connector, the connected account
    and the provider; [useAccount] and [useStarknet] read it. *)
Record StarknetContext := {
  ctx_account : option AccountInterface;
  ctx_connector : option Connector;
  ctx_library : ProviderInterface
}.

(** Modelled from the spec: what [useAccount] ([./useAccount], not among the
    sources) reads from the account context. *)
Record UseAccountResult := {
  account : option AccountInterface;
  connector : option Connector
}.

(** Modelled from the spec: [useAccount()], a read of the account context. *)
Definition useAccount (ctx : StarknetContext) : UseAccountResult :=
  {| account := ctx_account ctx; connector := ctx_connector ctx |}.

(** Modelled from the spec: what [useStarknet] (not among the sources) reads
    from the context. *)
Record UseStarknetResult := { library : ProviderInterface }.

(** Modelled from the spec: [useStarknet()], a read of the context. *)
Definition useStarknet (ctx : StarknetContext) : UseStarknetResult :=
  {| library := ctx_library ctx |}.

(** ** [useSwitchNetwork] (hooks/network) *)

(** What [useSwitchNetwork] returns: [{ switchNetwork }]. *)
Record UseSwitchNetworkResult := {
  switchNetwork : option (string -> JsError + unit)
}.

(** [connector !== undefined ? connector.switchNetwork : undefined]. *)
Definition useSwitchNetwork (ctx : StarknetContext) : UseSwitchNetworkResult :=
  let connector := connector (useAccount ctx) in
  let switchNetwork :=
    match connector with
    | Some c => conn_switchNetwork c
    | None => None
    end in
  {| switchNetwork := switchNetwork |}.

(** ** The mutation runner *)

(** Modelled from the spec: the status enum of a MutationInvocation
    (section 3). *)
Inductive MutationStatus := st_idle | st_loading | st_success | st_error | st_paused.

(** Modelled from the spec: the promise [runAsync] hands back: already
    settled, or waiting for the invocation with the given id. *)
Inductive Promise :=
  | Fulfilled (d : InvokeFunctionResponse)
  | Rejected (e : JsError)
  | Pending (id : nat).

Module MutationRunner.

(** Modelled from the spec: the mutation runner of section 4.2 ([useMutation]
    of [~/query], which is not among the sources).  [status], [data], [error]
    and [variables] are the MutationInvocation the hook shows; [observed] is
    its id, [None] after [reset]; [inflight] holds the suspended invocations
    with their continuations; [issued] is every request handed to the
    network, oldest first; [notified] is every status the observers were
    told, oldest first. *)
Record state := {
  status : MutationStatus;
  data : option InvokeFunctionResponse;
  error : option JsError;
  variables : option ContractWriteVariables;
  observed : option nat;
  next_id : nat;
  inflight : list (nat * (ExecuteAnswer -> Task InvokeFunctionResponse));
  issued : list ExecuteRequest;
  notified : list MutationStatus
}.

(** Modelled from the spec: a freshly mounted hook, idle. *)
Definition init : state :=
  {| status := st_idle; data := None; error := None; variables := None;
     observed := None; next_id := 0; inflight := []; issued := []; notified := [] |}.

(** Modelled from the spec: a settled result lands in the shown invocation
    (section 4.2, loading to success or error). *)
Definition land (r : JsError + InvokeFunctionResponse) (s : state) : state :=
  match r with
  | inl e =>
      {| status := st_error; data := None; error := Some e; variables := variables s;
         observed := observed s; next_id := next_id s; inflight := inflight s;
         issued := issued s; notified := notified s ++ [st_error] |}
  | inr d =>
      {| status := st_success; data := Some d; error := None; variables := variables s;
         observed := observed s; next_id := next_id s; inflight := inflight s;
         issued := issued s; notified := notified s ++ [st_success] |}
  end.

(** Modelled from the spec: [runAsync(variables)] of section 4.2.  The
    operation is invoked once; the hook shows the new invocation as loading;
    an operation that settles before any await on the network (a validation
    failure, section 7) lands at once, any other is suspended on its request. *)
Definition runAsync (operation : ContractWriteVariables -> Task InvokeFunctionResponse)
    (vars : ContractWriteVariables) (s : state) : state * Promise :=
  let id := next_id s in
  let started (infl : list (nat * (ExecuteAnswer -> Task InvokeFunctionResponse)))
              (iss : list ExecuteRequest) :=
    {| status := st_loading; data := None; error := None; variables := Some vars;
       observed := Some id; next_id := S id; inflight := infl; issued := iss;
       notified := notified s ++ [st_loading] |} in
  match operation vars with
  | Settled r =>
      (land r (started (inflight s) (issued s)),
       match r with inl e => Rejected e | inr d => Fulfilled d end)
  | Await req k =>
      (started (inflight s ++ [(id, k)]) (issued s ++ [req]), Pending id)
  end.

(** Modelled from the spec: [run(variables)], [runAsync] without the promise. *)
Definition run (operation : ContractWriteVariables -> Task InvokeFunctionResponse)
    (vars : ContractWriteVariables) (s : state) : state :=
  fst (runAsync operation vars s).

(** Modelled from the spec: [reset()] of section 4.2: back to idle, data and
    error cleared; nothing in flight is aborted, it is no longer shown. *)
Definition reset (s : state) : state :=
  {| status := st_idle; data := None; error := None; variables := None;
     observed := None; next_id := next_id s; inflight := inflight s;
     issued := issued s;
     notified := match status s with
                 | st_idle => notified s
                 | _ => notified s ++ [st_idle]
                 end |}.

(** Modelled from the spec: the continuation of invocation [id] and the
    other suspended ones. *)
Fixpoint take (id : nat) (l : list (nat * (ExecuteAnswer -> Task InvokeFunctionResponse)))
  : option ((ExecuteAnswer -> Task InvokeFunctionResponse)
            * list (nat * (ExecuteAnswer -> Task InvokeFunctionResponse))) :=
  match l with
  | [] => None
  | (i, k) :: rest =>
      if Nat.eqb i id then Some (k, rest)
      else match take id rest with
           | Some (k', rest') => Some (k', (i, k) :: rest')
           | None => None
           end
  end.

(** Modelled from the spec: the network answers invocation [id].  Its result
    lands only if the hook still shows that invocation; after a [reset] or a
    later [run] it is dropped (section 4.2). *)
Definition resolve (id : nat) (answer : ExecuteAnswer) (s : state) : state :=
  match take id (inflight s) with
  | None => s
  | Some (k, rest) =>
      match k answer with
      | Settled r =>
          let s' :=
            {| status := status s; data := data s; error := error s;
               variables := variables s; observed := observed s; next_id := next_id s;
               inflight := rest; issued := issued s; notified := notified s |} in
          match observed s with
          | Some shown => if Nat.eqb shown id then land r s' else s'
          | None => s'
          end
      | Await req k' =>
          {| status := status s; data := data s; error := error s;
             variables := variables s; observed := observed s; next_id := next_id s;
             inflight := rest ++ [(id, k')]; issued := issued s ++ [req];
             notified := notified s |}
      end
  end.

End MutationRunner.

(** Modelled from the spec: [UseMutationProps] of [~/query], the lifecycle
    callbacks ([onSuccess], [onError], ...) spread into [useMutation]; they do
    not take part in the runner's state. *)
Record UseMutationProps := { callbacks : list string }.

(** Modelled from the spec: the options object [useMutation] takes. *)
Record UseMutationOptions := {
  opt_mutationKey : list MutationKeyEntry;
  opt_mutationFn : ContractWriteVariables -> Task InvokeFunctionResponse;
  opt_props : UseMutationProps
}.

(** Modelled from the spec: [UseMutationResult] of [~/query], with the
    fields [useContractWrite] destructures. *)
Record UseMutationResult := {
  mutate : ContractWriteVariables -> MutationRunner.state -> MutationRunner.state;
  mutateAsync : ContractWriteVariables -> MutationRunner.state -> MutationRunner.state * Promise;
  mut_data : option InvokeFunctionResponse;
  mut_error : option JsError;
  mut_isError : bool;
  mut_isIdle : bool;
  mut_isLoading : bool;
  mut_isSuccess : bool;
  mut_isPaused : bool;
  mut_reset : MutationRunner.state -> MutationRunner.state;
  mut_status : MutationStatus;
  mut_variables : option ContractWriteVariables
}.

(** Equality of statuses, for the [is...] flags. *)
Definition status_is (a b : MutationStatus) : bool :=
  match a, b with
  | st_idle, st_idle | st_loading, st_loading | st_success, st_success
  | st_error, st_error | st_paused, st_paused => true
  | _, _ => false
  end.

(** Modelled from the spec: [useMutation] of [~/query], one render of the
    hook over the runner state [s]: the functions [run], [runAsync] and
    [reset] bound to the options, and the shown invocation's fields. *)
Definition useMutation (o : UseMutationOptions) (s : MutationRunner.state) : UseMutationResult :=
  {| mutate := MutationRunner.run (opt_mutationFn o);
     mutateAsync := MutationRunner.runAsync (opt_mutationFn o);
     mut_data := MutationRunner.data s;
     mut_error := MutationRunner.error s;
     mut_isError := status_is (MutationRunner.status s) st_error;
     mut_isIdle := status_is (MutationRunner.status s) st_idle;
     mut_isLoading := status_is (MutationRunner.status s) st_loading;
     mut_isSuccess := status_is (MutationRunner.status s) st_success;
     mut_isPaused := status_is (MutationRunner.status s) st_paused;
     mut_reset := MutationRunner.reset;
     mut_status := MutationRunner.status s;
     mut_variables := MutationRunner.variables s |}.

(** [UseContractWriteProps]: the variables and the mutation props. *)
Record UseContractWriteProps := {
  calls : option (list Call);
  abis : option (list Abi);
  options : option InvocationsDetails;
  props : UseMutationProps
}.

(** [UseContractWriteResult]: the mutation result with [mutate] and
    [mutateAsync] renamed [write] and [writeAsync]. *)
Record UseContractWriteResult := {
  write : ContractWriteVariables -> MutationRunner.state -> MutationRunner.state;
  writeAsync : ContractWriteVariables -> MutationRunner.state -> MutationRunner.state * Promise;
  data : option InvokeFunctionResponse;
  error : option JsError;
  isError : bool;
  isIdle : bool;
  isLoading : bool;
  isSuccess : bool;
  isPaused : bool;
  reset : MutationRunner.state -> MutationRunner.state;
  status : MutationStatus;
  variables : option ContractWriteVariables
}.

(** The options object [useContractWrite] passes to [useMutation]:
    [{ mutationKey: mutationKey({...}), mutationFn: mutationFn({...}), ...props }]. *)
Definition useContractWrite_options (ctx : StarknetContext) (p : UseContractWriteProps)
  : UseMutationOptions :=
  let account := account (useAccount ctx) in
  {| opt_mutationKey := mutationKey account (calls p) (abis p) (options p);
     opt_mutationFn := mutationFn account (calls p) (abis p) (options p);
     opt_props := props p |}.

(** [useContractWrite({ calls, abis, options, ...props })], one render over
    the account context [ctx] and the runner state [s]. *)
Definition useContractWrite (ctx : StarknetContext) (p : UseContractWriteProps)
    (s : MutationRunner.state) : UseContractWriteResult :=
  let m := useMutation (useContractWrite_options ctx p) s in
  {| write := mutate m;
     writeAsync := mutateAsync m;
     data := mut_data m;
     error := mut_error m;
     isError := mut_isError m;
     isIdle := mut_isIdle m;
     isLoading := mut_isLoading m;
     isSuccess := mut_isSuccess m;
     isPaused := mut_isPaused m;
     reset := mut_reset m;
     status := mut_status m;
     variables := mut_variables m |}.

(** ** The query cache *)

(** Modelled from the spec: the error taxonomy of section 7. *)
Inductive FetchError :=
  | ValidationError
  | NetworkError
  | NotFoundError
  | RejectedError
  | UnsupportedOperation.

(** Modelled from the spec: which failures the retry policy takes up again
    (section 7: NetworkError and NotFoundError are retried, RejectedError
    never). *)
Definition retryable (e : FetchError) : bool :=
  match e with
  | NetworkError | NotFoundError => true
  | ValidationError | RejectedError | UnsupportedOperation => false
  end.

(** What one network call of a read answers: a failure or [result[]]. *)
Definition FetchOutcome : Type := FetchError + list string.

(** The status of a read: ['idle' | 'error' | 'loading' | 'success'], as
    [UseBalanceResult] declares it. *)
Inductive QueryStatus := q_idle | q_loading | q_success | q_error.

(** Modelled from the spec: RequestKey of section 3, the tuple
    [{entity-tag, account-identifier, call-parameters}]; a parameter may be
    [undefined]. *)
Record RequestKey := {
  rk_entity : string;
  rk_account : option string;
  rk_params : list (option string)
}.

#[global] Instance RequestKey_eq_dec : EqDecision RequestKey.
Proof. solve_decision. Defined.

#[global] Instance RequestKey_countable : Countable RequestKey.
Proof.
  apply (inj_countable'
           (fun k => (rk_entity k, rk_account k, rk_params k))
           (fun t => {| rk_entity := t.1.1; rk_account := t.1.2; rk_params := t.2 |})).
  intros k. destruct k as [e a p]. reflexivity.
Defined.

(** Modelled from the spec: the options of [getOrFetch] (section 4.1). *)
Record QueryOptions := {
  opt_watch : bool;
  opt_retry : bool;
  opt_enabled : bool
}.

Module QueryCache.

(** Modelled from the spec: QueryEntry of section 3, with what the cache
    needs to keep its promises: [inflight] lists the fetches of this key that
    have not settled, each with the number of its current attempt, oldest
    first; [applied] is the issuance number of the fetch whose result the
    entry shows, 0 when none landed yet. *)
Record QueryEntry := {
  key : RequestKey;
  data : option (list string);
  error : option FetchError;
  status : QueryStatus;
  lastFetchedAt : nat;
  observerCount : nat;
  watch : bool;
  retry : bool;
  inflight : list (nat * nat);
  applied : nat
}.

(** One call of the read provider: for which key, on behalf of which fetch,
    which attempt of it, and the delay waited before it (milliseconds). *)
Record NetworkCall := {
  nc_key : RequestKey;
  nc_fetch : nat;
  nc_attempt : nat;
  nc_delay : nat
}.

(** Modelled from the spec: the tunables section 4.1 leaves open: the age
    after which data is stale, the first retry delay (suggested: 1000 ms), the
    cap on the delay and the bound on the attempts of one fetch. *)
Record config := {
  staleTime : nat;
  retryBase : nat;
  retryCap : nat;
  maxAttempts : nat
}.

(** Modelled from the spec: the cache, an explicit object (section 9): one
    entry per key (section 3), the clock, every network call so far, oldest
    first, and the next issuance number. *)
Record state := {
  cfg : config;
  entries : gmap RequestKey QueryEntry;
  now : nat;
  calls : list NetworkCall;
  next_fetch : nat
}.

(** Modelled from the spec: the cache at application start, empty. *)
Definition init (c : config) : state :=
  {| cfg := c; entries := ∅; now := 0; calls := []; next_fetch := 1 |}.

(** Modelled from the spec: the entry a first subscription creates
    (section 3, lifecycle). *)
Definition fresh (k : RequestKey) : QueryEntry :=
  {| key := k; data := None; error := None; status := q_idle; lastFetchedAt := 0;
     observerCount := 0; watch := false; retry := false; inflight := []; applied := 0 |}.

(** Modelled from the spec: the entry of a key, the fresh one when the key
    has none yet. *)
Definition entry_of (c : state) (k : RequestKey) : QueryEntry :=
  default (fresh k) (entries c !! k).

(** Modelled from the spec: store the entry of a key; a key has one entry
    (section 3, invariant). *)
Definition put (k : RequestKey) (e : QueryEntry) (c : state) : state :=
  {| cfg := cfg c; entries := <[k := e]> (entries c); now := now c;
     calls := calls c; next_fetch := next_fetch c |}.

(** Modelled from the spec: "stale or absent" (section 4.1): never fetched,
    or fetched [staleTime] or longer ago. *)
Definition needs_fetch (c : state) (e : QueryEntry) : bool :=
  match status e with
  | q_idle => true
  | _ => Nat.leb (staleTime (cfg c)) (now c - lastFetchedAt e)
  end.

(** Modelled from the spec: the retry schedule of section 4.1: the delay
    before attempt [a + 1] doubles from [retryBase] and is capped. *)
Definition backoff (c : config) (a : nat) : nat :=
  Nat.min (retryCap c) (retryBase c * 2 ^ a).

(** Modelled from the spec: the fetch a new caller joins, the most recently
    issued one in flight (section 4.1, one shared in-flight promise). *)
Definition shared (e : QueryEntry) : option nat :=
  fst <$> last (inflight e).

(** Modelled from the spec: issue a fetch for [k]: one network call, a new
    issuance number, the fetch in flight.  Data and error stay until the result lands; an entry
    that never fetched shows loading. *)
Definition issue (k : RequestKey) (e : QueryEntry) (c : state) : nat * state :=
  let n := next_fetch c in
  let e' :=
    {| key := key e; data := data e; error := error e;
       status := match status e with q_idle => q_loading | st => st end;
       lastFetchedAt := lastFetchedAt e; observerCount := observerCount e;
       watch := watch e; retry := retry e;
       inflight := inflight e ++ [(n, 0)]; applied := applied e |} in
  (n,
   {| cfg := cfg c; entries := <[k := e']> (entries c); now := now c;
      calls := calls c ++ [{| nc_key := k; nc_fetch := n; nc_attempt := 0; nc_delay := 0 |}];
      next_fetch := S n |}).

(** Modelled from the spec: the caller becomes an observer (observerCount,
    section 3); its options are the entry's from now on. *)
Definition subscribe (o : QueryOptions) (e : QueryEntry) : QueryEntry :=
  {| key := key e; data := data e; error := error e; status := status e;
     lastFetchedAt := lastFetchedAt e; observerCount := S (observerCount e);
     watch := opt_watch o; retry := opt_retry o;
     inflight := inflight e; applied := applied e |}.

(** Modelled from the spec: [getOrFetch(key, fetchFn, options)] of section
    4.1.  The caller becomes an observer of the entry.  With the guard off
    nothing is fetched.  Otherwise a caller joins the fetch in flight, if any,
    and a fetch is issued only for an entry that is stale or absent.  The
    result is the entry, the fetch the caller waits for, and the cache. *)
Definition getOrFetch (k : RequestKey) (o : QueryOptions) (c : state)
  : QueryEntry * option nat * state :=
  let e := subscribe o (entry_of c k) in
  if negb (opt_enabled o) then (e, None, put k e c)
  else
    match shared e with
    | Some n => (e, Some n, put k e c)
    | None =>
        if needs_fetch c e then
          let '(n, c') := issue k e c in (entry_of c' k, Some n, c')
        else (e, None, put k e c)
    end.

(** Modelled from the spec: manual [refetch()] of section 4.1: a new fetch
    whatever the freshness, also while another is in flight. *)
Definition refetch (k : RequestKey) (c : state) : nat * state :=
  issue k (entry_of c k) c.

(** Modelled from the spec: time passes. *)
Definition advance (dt : nat) (c : state) : state :=
  {| cfg := cfg c; entries := entries c; now := now c + dt; calls := calls c;
     next_fetch := next_fetch c |}.

(** Modelled from the spec: the current attempt of fetch [n], if in flight. *)
Definition attempt_of (n : nat) (l : list (nat * nat)) : option nat :=
  snd <$> find (fun p => Nat.eqb (fst p) n) l.

(** Modelled from the spec: fetch [n] leaves the fetches in flight. *)
Definition without (n : nat) (l : list (nat * nat)) : list (nat * nat) :=
  filter (fun p => fst p ≠ n) l.

(** Modelled from the spec: fetch [n] moves on to attempt [a]. *)
Definition reattempt (n a : nat) (l : list (nat * nat)) : list (nat * nat) :=
  (fun p => if Nat.eqb (fst p) n then (n, a) else p) <$> l.

(** Modelled from the spec: a fetch settles (section 5).  It leaves the
    fetches in flight; its result lands only if no fetch issued after it has
    landed already.  Data and error are kept until the new result lands
    (section 4.1); when it lands the entry holds that result, the value of a
    success or the error of a failure, and nothing of the former one. *)
Definition settle (n : nat) (r : FetchOutcome) (now_ : nat) (e : QueryEntry) : QueryEntry :=
  if Nat.ltb (applied e) n then
    match r with
    | inr v =>
        {| key := key e; data := Some v; error := None; status := q_success;
           lastFetchedAt := now_; observerCount := observerCount e;
           watch := watch e; retry := retry e;
           inflight := without n (inflight e); applied := n |}
    | inl err =>
        {| key := key e; data := None; error := Some err; status := q_error;
           lastFetchedAt := now_; observerCount := observerCount e;
           watch := watch e; retry := retry e;
           inflight := without n (inflight e); applied := n |}
    end
  else
    {| key := key e; data := data e; error := error e; status := status e;
       lastFetchedAt := lastFetchedAt e; observerCount := observerCount e;
       watch := watch e; retry := retry e;
       inflight := without n (inflight e); applied := applied e |}.

(** Modelled from the spec: what an entry shows of a landed result: its
    data, its error and its status. *)
Definition shown (r : FetchOutcome) : option (list string) * option FetchError * QueryStatus :=
  match r with
  | inr v => (Some v, None, q_success)
  | inl err => (None, Some err, q_error)
  end.

(** Modelled from the spec: whether a failed attempt is taken up again
    (sections 4.1 and 7): the entry asked for retries, the failure is a
    retryable one and the attempts are not used up. *)
Definition retries (c : config) (e : QueryEntry) (a : nat) (r : FetchOutcome) : bool :=
  match r with
  | inr _ => false
  | inl err => retry e && retryable err && Nat.ltb (S a) (maxAttempts c)
  end.

(** Modelled from the spec: the network call that takes up fetch [n] again
    after its attempt [i] failed, [backoff i] milliseconds later. *)
Definition retry_call (cf : config) (k : RequestKey) (n i : nat) : NetworkCall :=
  {| nc_key := k; nc_fetch := n; nc_attempt := S i; nc_delay := backoff cf i |}.

(** Modelled from the spec: the network answers the current attempt of fetch
    [n] of key [k].  An answer for a fetch that is not in flight is ignored. *)
Definition respond (n : nat) (k : RequestKey) (r : FetchOutcome) (c : state) : state :=
  match entries c !! k with
  | None => c
  | Some e =>
      match attempt_of n (inflight e) with
      | None => c
      | Some a =>
          if retries (cfg c) e a r then
            let e' :=
              {| key := key e; data := data e; error := error e; status := status e;
                 lastFetchedAt := lastFetchedAt e; observerCount := observerCount e;
                 watch := watch e; retry := retry e;
                 inflight := reattempt n (S a) (inflight e); applied := applied e |} in
            {| cfg := cfg c; entries := <[k := e']> (entries c); now := now c;
               calls := calls c ++ [retry_call (cfg c) k n a];
               next_fetch := next_fetch c |}
          else put k (settle n r (now c) e) c
      end
  end.

(** Modelled from the spec: the network answers the attempts of fetch [n]
    one after the other. *)
Definition respond_each (n : nat) (k : RequestKey) (rs : list FetchOutcome) (c : state)
  : state :=
  foldl (fun c' r => respond n k r c') c rs.

(** Modelled from the spec: answers arrive one after the other, each for
    the fetch of [k] it names. *)
Definition respond_all (k : RequestKey) (answers : list (nat * FetchOutcome)) (c : state)
  : state :=
  foldl (fun c' ev => respond (fst ev) k (snd ev) c') c answers.

(** Modelled from the spec: what an entry shows: data, error and status. *)
Definition showing (e : QueryEntry) : option (list string) * option FetchError * QueryStatus :=
  (data e, error e, status e).

(** Modelled from the spec: what sound bookkeeping looks like: every
    issuance number an entry holds is below the next one to give out. *)
Definition wf (c : state) : Prop :=
  0 < next_fetch c
  /\ forall k e, entries c !! k = Some e ->
       applied e < next_fetch c
       /\ Forall (fun p => fst p < next_fetch c) (inflight e).

(** The network calls made for key [k]. *)
Definition calls_for (k : RequestKey) (c : state) : list NetworkCall :=
  filter (fun nc => nc_key nc = k) (calls c).

(** The network calls made on behalf of fetch [n]. *)
Definition calls_of (n : nat) (c : state) : list NetworkCall :=
  filter (fun nc => nc_fetch nc = n) (calls c).

End QueryCache.

(** ** [useBalance] (hooks/balance) *)

(** What the engine raises when an identifier that has no binding is
    evaluated. *)
Definition ReferenceError (name : string) : JsError :=
  {| err_name := "ReferenceError"; err_message := name +:+ " is not defined" |}.

(** The argument object of [useContractRead], with the fields [useBalance]
    passes: [{ address, abi, functionName, args, watch }]. *)
Record UseContractReadArgs := {
  cr_address : option string;
  cr_abi : Abi;
  cr_functionName : string;
  cr_args : option (list (option string));
  cr_watch : bool
}.

Module BalanceResult.

(** [UseBalanceResult], the value returned for [useBalance]. *)
Record result := {
  data : option (list string);
  error : option JsError;
  isIdle : bool;
  isLoading : bool;
  isFetching : bool;
  isSuccess : bool;
  isError : bool;
  isFetched : bool;
  isFetchedAfterMount : bool;
  isRefetching : bool;
  refetch : QueryCache.state -> QueryCache.state;
  status : QueryStatus
}.

End BalanceResult.

(** Arguments for [useBalance].  The interface declares [address: string];
    at run time the caller's value may be [undefined] (as [address] of
    [useAccount()] is while no wallet is connected). *)
Record UseBalanceArgs := {
  address : option string;
  token : option string;
  watch : option bool
}.

(** A compiled contract, by the one member the hook reads: [.abi]. *)
Record CompiledContract := { cc_abi : Abi }.

(** The identifier [compiledErc20] as the module of [useBalance] resolves
    it.  The module binds [useContractRead], [ethByChainId] and [useStarknet]
    (its two import lines), [ethAddress] and [useBalance]; it neither imports
    nor declares [compiledErc20], so the name has no binding. *)
Definition compiledErc20 : option CompiledContract := None.

(** [const ethAddress = '0x049d...'], declared in the module and used
    nowhere. *)
Definition ethAddress : string :=
  "0x049d36570d4e46f48e99674bd3fcc84644ddd6b96f7c741b1562b82f9e004dc7".

Section Balance.

(** Imported by the hook and not among the sources: the table of the chains'
    ETH contracts (from [..]) and the read hook (from [./call]), which works
    on the query cache. *)
Context (ethByChainId : string -> option string)
        (useContractRead : UseContractReadArgs -> QueryCache.state
                           -> BalanceResult.result * QueryCache.state).

(** [useBalance({ address, token, watch = false })], one render over the
    context [ctx] and the query cache [c].  The properties of the argument
    object are evaluated in order: [address], then [abi], where the unbound
    [compiledErc20] makes the engine throw; [useContractRead] is called only
    once the object is built. *)
Definition useBalance (ctx : StarknetContext) (a : UseBalanceArgs) (c : QueryCache.state)
  : (JsError + BalanceResult.result) * QueryCache.state :=
  let library := library (useStarknet ctx) in
  let contract := match token a with
                  | Some t => Some t
                  | None => ethByChainId (chainId library)
                  end in
  match compiledErc20 with
  | None => (inl (ReferenceError "compiledErc20"), c)
  | Some erc20 =>
      let '(r, c') :=
        useContractRead
          {| cr_address := contract;
             cr_abi := cc_abi erc20;
             cr_functionName := "balanceOf";
             cr_args := Some [address a];
             cr_watch := default false (watch a) |} c in
      (inr r, c')
  end.

End Balance.

(** ** [useNetwork] (hooks/network) *)

Section Network.

(** Imported by the hook and not among the sources: the chain descriptors
    ([Chain]) and the table [chainById] of [../network]. *)
Context {Chain : Type} (chainById : string -> option Chain).

(** One mounted [useNetwork]: [ns_chain] is the [chain] of [useState], and
    [ns_pending] the [getChainId()] promises that have not settled, by
    issuance number, with [ns_next] the next number to give out. *)
Record NetworkState := {
  ns_chain : option Chain;
  ns_pending : list nat;
  ns_next : nat
}.

(** [useState<Chain>()] at mount: no chain, nothing asked yet. *)
Definition useNetwork_mount : NetworkState :=
  {| ns_chain := None; ns_pending := []; ns_next := 0 |}.

(** The body of the effect, run at mount and whenever [library] changes.
    With a library it calls [library.getChainId()] and registers the [then]
    callback: the promise is pending and the chain stays what it was.
    Without one it calls [setChain(undefined)]. *)
Definition useNetwork_effect (library : option ProviderInterface) (s : NetworkState)
  : NetworkState :=
  match library with
  | Some _ =>
      {| ns_chain := ns_chain s; ns_pending := ns_pending s ++ [ns_next s];
         ns_next := S (ns_next s) |}
  | None =>
      {| ns_chain := None; ns_pending := ns_pending s; ns_next := ns_next s |}
  end.

(** The promise [id] is fulfilled with [chainId]: its [then] callback runs
    [setChain(chainById(chainId))].  A promise settles once. *)
Definition useNetwork_resolved (id : nat) (chainId : string) (s : NetworkState)
  : NetworkState :=
  if bool_decide (id ∈ ns_pending s) then
    {| ns_chain := chainById chainId;
       ns_pending := filter (fun i => i <> id) (ns_pending s);
       ns_next := ns_next s |}
  else s.

(** The promise [id] is rejected: no handler is registered for that, the
    chain stays what it was. *)
Definition useNetwork_rejected (id : nat) (s : NetworkState) : NetworkState :=
  {| ns_chain := ns_chain s;
     ns_pending := filter (fun i => i <> id) (ns_pending s);
     ns_next := ns_next s |}.

(** What happens to a mounted [useNetwork]: the effect runs (at mount and at
    every change of [library], its one dependency) with the library of that
    render, or one of the [getChainId()] promises settles. *)
Inductive NetworkEvent :=
  | LibraryChanged (library : option ProviderInterface)
  | ChainIdResolved (id : nat) (chainId : string)
  | ChainIdRejected (id : nat).

Definition useNetwork_step (s : NetworkState) (ev : NetworkEvent) : NetworkState :=
  match ev with
  | LibraryChanged library => useNetwork_effect library s
  | ChainIdResolved id chainId => useNetwork_resolved id chainId s
  | ChainIdRejected id => useNetwork_rejected id s
  end.

(** The events that make the effect call [getChainId()]: a change to a
    defined library. *)
Definition is_library_set (ev : NetworkEvent) : bool :=
  match ev with
  | LibraryChanged (Some _) => true
  | _ => false
  end.

(** The hook after a history of events, oldest first. *)
Definition useNetwork_run (evs : list NetworkEvent) (s : NetworkState) : NetworkState :=
  foldl useNetwork_step s evs.

(** Value returned from [useNetwork]. *)
Record UseNetworkResult := { chain : option Chain }.

(** [useNetwork()], one render: [return { chain }]. *)
Definition useNetwork (s : NetworkState) : UseNetworkResult :=
  {| chain := ns_chain s |}.

End Network.

(** ** The connector helpers (connectors/index) *)

(** The options an [InjectedConnector] is built with; the icon object of the
    helpers is empty. *)
Record InjectedConnectorOptions := {
  ic_id : string;
  ic_name : string;
  ic_icon : list (string * string)
}.

(** [new InjectedConnector({ options })]; the class ([./injected]) is not
    among the sources, the object is carried by its options. *)
Record InjectedConnector := { ic_options : InjectedConnectorOptions }.

Definition argent : InjectedConnector :=
  {| ic_options := {| ic_id := "argentX"; ic_name := "Argent"; ic_icon := [] |} |}.

Definition braavos : InjectedConnector :=
  {| ic_options := {| ic_id := "braavos"; ic_name := "Braavos"; ic_icon := [] |} |}.

(** ** The transaction manager demo (docs) *)

(** Value returned from [useTransactionManager]: the atom's value and [add],
    which runs [setValue((prev) => [...prev, hash])] on the atom's current
    value. *)
Record UseTransactionManagerResult := {
  hashes : list string;
  add : string -> list string -> list string
}.

(** [useTransactionManager()], one render over the atom's value. *)
Definition useTransactionManager (value : list string) : UseTransactionManagerResult :=
  {| hashes := value; add := fun hash prev => prev ++ [hash] |}.

(** [submitTx]: [const tx = await writeAsync({}); add(tx.transaction_hash)].
    [written] is what the promise of [writeAsync] settled to; on a rejection
    the [await] throws and [add] is not reached.  The result is the atom's
    value afterwards. *)
Definition submitTx (tm : UseTransactionManagerResult)
    (written : JsError + InvokeFunctionResponse) (value : list string) : list string :=
  match written with
  | inr tx => add tm (transaction_hash tx) value
  | inl _ => value
  end.

(** ** The send-transaction demo (docs) *)

(** JavaScript truthiness of a possibly-undefined string: [undefined] and the
    empty string are falsy. *)
Definition truthy (s : option string) : bool :=
  match s with
  | Some v => negb (String.eqb v "")
  | None => false
  end.

(** The error of [Array.from] (and of [new Array]) for a length that is no
    array length. *)
Definition RangeError (message : string) : JsError :=
  {| err_name := "RangeError"; err_message := message |}.

(** The greatest length an array can have, 2^32 - 1. *)
Definition MAX_ARRAY_LENGTH : Z := 4294967295.

(** The integers a JavaScript number holds exactly reach up to 2^53; there
    [c + 1] rounds back to [c]. *)
Definition MAX_EXACT_INTEGER : Z := 9007199254740992.

Section SendTransaction.

(** From the SDK and not among the sources: the [Uint256] struct and
    [uint256.bnToUint256]. *)
Context {Uint256 : Type} (bnToUint256 : Z -> Uint256).

(** A contract object, by what the demo uses of it:
    [contract.populateTransaction["transfer"]]. *)
Record Contract := { populate_transfer : string -> Uint256 -> Call }.

(** The [calls] memo of the demo:
    [if (!address || !contract) return [];
     return Array.from({ length: count }, (_, i) =>
       contract.populateTransaction["transfer"](address, bnToUint256(BigInt(i))))].
    [count] is an integer.  [Array.from] takes a length below zero as zero
    and throws a RangeError for a length above 2^32 - 1, before the first
    call is built. *)
Definition sendTransaction_calls (address : option string) (contract : option Contract)
    (count : Z) : JsError + list Call :=
  if negb (truthy address) then inr []
  else
    match address, contract with
    | Some a, Some c =>
        if (MAX_ARRAY_LENGTH <? count)%Z then inl (RangeError "Invalid array length")
        else
          inr ((fun i => populate_transfer c a (bnToUint256 (Z.of_nat i)))
                 <$> seq 0 (Z.to_nat count))
    | _, _ => inr []
    end.

End SendTransaction.

(** The counter of the demo, [useState(1)], and its two buttons:
    [setCount((c) => Math.max(0, c - 1))] and [setCount((c) => c + 1)].  The
    counter is a JavaScript number holding an integer between 0 and 2^53,
    where the model is exact: below 2^53 both [c - 1] and [c + 1] are exact,
    and at 2^53 the sum [c + 1] rounds to 2^53 again, so the plus button
    leaves the counter where it is. *)
Inductive CountClick := Minus | Plus.

Definition count_init : Z := 1.

Definition setCount (c : Z) (click : CountClick) : Z :=
  match click with
  | Minus => Z.max 0 (c - 1)
  | Plus => if (c <? MAX_EXACT_INTEGER)%Z then c + 1 else c
  end.

Definition count_after (clicks : list CountClick) : Z :=
  foldl setCount count_init clicks.

(** ** The burner-account demo (docs) *)

(** [const FUNDING_AMOUNT = 100_000_000_000_000n]. *)
Definition FUNDING_AMOUNT : Z := 100000000000000.

Section BurnerDemo.

(** From the SDK and not among the sources, as for the send-transaction
    demo. *)
Context {Uint256 : Type} (bnToUint256 : Z -> Uint256).

(** The [calls] of [FundBurnerAccount]:
    [eth && mainAccount && address
       ? [eth.populateTransaction["transfer"](address, bnToUint256(FUNDING_AMOUNT))]
       : []]. *)
Definition FundBurnerAccount_calls (eth : option (Contract (Uint256 := Uint256)))
    (mainAccount : option AccountInterface) (address : option string) : list Call :=
  match eth, mainAccount, address with
  | Some c, Some _, Some a =>
      if truthy address then [populate_transfer c a (bnToUint256 FUNDING_AMOUNT)] else []
  | _, _, _ => []
  end.

End BurnerDemo.

(** [fundAccount]: [await writeAsync({}); setFundedAddress(address)].
    [written] is what the promise of [writeAsync] settled to; the result is
    the funded-address atom afterwards. *)
Definition fundAccount (written : JsError + InvokeFunctionResponse)
    (address : option string) (fundedAddress : option string) : option string :=
  match written with
  | inr _ => address
  | inl _ => fundedAddress
  end.

(** An index of [String.prototype.slice], relative to a string of length
    [len]: a negative index counts from the end, and both are clamped. *)
Definition slice_index (len : nat) (i : Z) : nat :=
  if Z.ltb i 0 then Z.to_nat (Z.max (Z.of_nat len + i) 0)
  else Nat.min (Z.to_nat i) len.

(** [s.slice(start, end)]; [end] omitted is the length. *)
Definition slice (s : string) (start : Z) (end_ : option Z) : string :=
  let len := String.length s in
  let from := slice_index len start in
  let to := match end_ with
            | Some e => slice_index len e
            | None => len
            end in
  String.substring from (to - from) s.

(** [address ? `${address.slice(0, 8)}...${address.slice(-4)}` : "not connected"]. *)
Definition shortAddress (address : option string) : string :=
  match address with
  | Some a =>
      if truthy address then slice a 0 (Some 8%Z) +:+ "..." +:+ slice a (-4) None
      else "not connected"
  | None => "not connected"
  end.

(** * Properties *)

(** ** The mutation function *)

(** Without an account the function throws before it looks at the calls. *)
Lemma mutationFn_no_account calls abis options vars :
  mutationFn None calls abis options vars = throw (Error "account is required").
Proof. reflexivity. Qed.

(** With an account and no call to make it throws as well. *)
Lemma mutationFn_no_calls acc calls abis options vars :
  calls = None \/ calls = Some [] ->
  mutationFn (Some acc) calls abis options vars = throw (Error "calls are required").
Proof. intros [-> | ->]; reflexivity. Qed.

(** With an account and at least one call its body is one await on
    [execute], whose answer it returns as it is. *)
Lemma mutationFn_executes acc c cs abis options vars :
  mutationFn (Some acc) (Some (c :: cs)) abis options vars
  = Await {| req_account := acc; req_calls := c :: cs; req_abis := abis;
             req_options := options |} (fun answer => Settled answer).
Proof. reflexivity. Qed.

(** The variables given to [write] play no part. *)
Lemma mutationFn_ignores_variables account calls abis options vars vars' :
  mutationFn account calls abis options vars = mutationFn account calls abis options vars'.
Proof. reflexivity. Qed.

(** A task that settles at once leaves the network alone. *)
Lemma run_task_settled {A : Type} (r : JsError + A) answers :
  run_task (Settled r) answers = ([], Some r).
Proof. destruct answers; reflexivity. Qed.

(** ** The runner *)

Lemma runAsync_settled operation vars s r :
  operation vars = Settled r ->
  MutationRunner.issued (fst (MutationRunner.runAsync operation vars s)) = MutationRunner.issued s
  /\ MutationRunner.inflight (fst (MutationRunner.runAsync operation vars s))
     = MutationRunner.inflight s.
Proof.
  intros H. unfold MutationRunner.runAsync. rewrite H.
  destruct r; simpl; split; reflexivity.
Qed.

Lemma runAsync_await operation vars s req k :
  operation vars = Await req k ->
  MutationRunner.runAsync operation vars s
  = ({| MutationRunner.status := st_loading; MutationRunner.data := None;
        MutationRunner.error := None; MutationRunner.variables := Some vars;
        MutationRunner.observed := Some (MutationRunner.next_id s);
        MutationRunner.next_id := S (MutationRunner.next_id s);
        MutationRunner.inflight := MutationRunner.inflight s ++ [(MutationRunner.next_id s, k)];
        MutationRunner.issued := MutationRunner.issued s ++ [req];
        MutationRunner.notified := MutationRunner.notified s ++ [st_loading] |},
     Pending (MutationRunner.next_id s)).
Proof. intros H. unfold MutationRunner.runAsync. rewrite H. reflexivity. Qed.

(** ** useContractWrite *)

(** C1. A [write] or [writeAsync] of [useContractWrite] without an active
    account, or with the hook's call list missing or empty, fails with an
    error that names the missing input: the mutation function settles by a
    throw and holds no await on [execute], no request is issued and nothing
    is left in flight, the promise of [writeAsync] is rejected with that
    error, and the hook's next render shows status error with it. *)
Theorem write_without_inputs_fails_fast (ctx : StarknetContext) (p : UseContractWriteProps)
    (vars : ContractWriteVariables) (s : MutationRunner.state) :
  ctx_account ctx = None \/ calls p = None \/ calls p = Some [] ->
  let e := Error (match ctx_account ctx with
                  | None => "account is required"
                  | Some _ => "calls are required"
                  end) in
  let s' := write (useContractWrite ctx p s) vars s in
  mutationFn (ctx_account ctx) (calls p) (abis p) (options p) vars = Settled (inl e)
  /\ (forall answers,
        fst (run_task (mutationFn (ctx_account ctx) (calls p) (abis p) (options p) vars) answers)
        = [])
  /\ writeAsync (useContractWrite ctx p s) vars s = (s', Rejected e)
  /\ MutationRunner.issued s' = MutationRunner.issued s
  /\ MutationRunner.inflight s' = MutationRunner.inflight s
  /\ MutationRunner.notified s' = MutationRunner.notified s ++ [st_loading; st_error]
  /\ status (useContractWrite ctx p s') = st_error
  /\ error (useContractWrite ctx p s') = Some e
  /\ isError (useContractWrite ctx p s') = true.
Proof.
  intros Hmiss e s'.
  assert (Hfn : mutationFn (ctx_account ctx) (calls p) (abis p) (options p) vars
                = Settled (inl e)).
  { subst e. destruct (ctx_account ctx) as [acc|] eqn:Hacc.
    - destruct Hmiss as [Hno | Hcalls]; [discriminate|].
      now apply mutationFn_no_calls.
    - apply mutationFn_no_account. }
  assert (Hs' : s' = fst (MutationRunner.runAsync
                            (mutationFn (ctx_account ctx) (calls p) (abis p) (options p))
                            vars s)) by reflexivity.
  split; [exact Hfn|].
  split; [intros answers; rewrite Hfn; now rewrite run_task_settled|].
  split.
  { subst s'. cbn. unfold MutationRunner.run, MutationRunner.runAsync.
    cbn. rewrite Hfn. reflexivity. }
  destruct (runAsync_settled _ vars s _ Hfn) as [Hiss Hinf].
  rewrite Hs'. split; [exact Hiss|]. split; [exact Hinf|].
  unfold MutationRunner.runAsync. rewrite Hfn. cbn. rewrite <- app_assoc. auto.
Qed.

(** C1, at a hook with no account connected. *)
Lemma write_without_inputs_fails_fast_witness :
  let ctx := {| ctx_account := None; ctx_connector := None;
                ctx_library := {| chainId := "0x534e5f474f45524c49" |} |} in
  let p := {| calls := Some []; abis := None; options := None;
              props := {| callbacks := [] |} |} in
  let vars := {| var_calls := None; var_abis := None; var_options := None |} in
  (ctx_account ctx = None \/ calls p = None \/ calls p = Some [])
  /\ writeAsync (useContractWrite ctx p MutationRunner.init) vars MutationRunner.init
     = (write (useContractWrite ctx p MutationRunner.init) vars MutationRunner.init,
        Rejected (Error "account is required"))
  /\ MutationRunner.issued
       (write (useContractWrite ctx p MutationRunner.init) vars MutationRunner.init) = [].
Proof.
  intros ctx p vars.
  split; [left; reflexivity|].
  pose proof (write_without_inputs_fails_fast ctx p vars MutationRunner.init
                (or_introl eq_refl)) as H.
  cbv zeta in H. destruct H as (_ & _ & Hasync & Hiss & _).
  split; [exact Hasync | exact Hiss].
Defined.

(** C4. A [write] or [writeAsync] of [useContractWrite] with an active
    account and a non-empty call list calls
    [account.execute(calls, abis, options)] exactly once and returns what it
    answers; a second invocation while the first is in flight issues a
    request of its own, under a promise of its own. *)
Theorem write_executes_once (ctx : StarknetContext) (p : UseContractWriteProps)
    (vars vars' : ContractWriteVariables) (s : MutationRunner.state)
    (acc : AccountInterface) (c : Call) (cs : list Call) :
  ctx_account ctx = Some acc ->
  calls p = Some (c :: cs) ->
  let req := {| req_account := acc; req_calls := c :: cs; req_abis := abis p;
                req_options := options p |} in
  let fn := mutationFn (account (useAccount ctx)) (calls p) (abis p) (options p) in
  let first := writeAsync (useContractWrite ctx p s) vars s in
  let second := writeAsync (useContractWrite ctx p (fst first)) vars' (fst first) in
  (forall answer rest, run_task (fn vars) (answer :: rest) = ([req], Some answer))
  /\ run_task (fn vars) [] = ([req], None)
  /\ MutationRunner.issued (fst first) = MutationRunner.issued s ++ [req]
  /\ snd first = Pending (MutationRunner.next_id s)
  /\ MutationRunner.issued (fst second) = MutationRunner.issued s ++ [req; req]
  /\ snd second = Pending (S (MutationRunner.next_id s))
  /\ length (MutationRunner.inflight (fst second)) = 2 + length (MutationRunner.inflight s)
  /\ write (useContractWrite ctx p s) vars s = fst first.
Proof.
  intros Hacc Hcalls req fn first second.
  assert (Hfn : forall v, fn v = Await req (fun answer => Settled answer)).
  { intros v. subst fn req. cbn. rewrite Hacc, Hcalls. apply mutationFn_executes. }
  assert (Hfirst : first = MutationRunner.runAsync fn vars s) by reflexivity.
  rewrite (runAsync_await fn vars s _ _ (Hfn vars)) in Hfirst.
  assert (Hsecond : second = MutationRunner.runAsync fn vars' (fst first)) by reflexivity.
  rewrite (runAsync_await fn vars' (fst first) _ _ (Hfn vars')) in Hsecond.
  repeat split.
  - intros answer rest. rewrite Hfn. cbn. destruct rest; reflexivity.
  - now rewrite Hfn.
  - now rewrite Hfirst.
  - now rewrite Hfirst.
  - rewrite Hsecond, Hfirst. cbn. now rewrite <- app_assoc.
  - rewrite Hsecond, Hfirst. reflexivity.
  - rewrite Hsecond, Hfirst. cbn. rewrite !length_app. cbn. lia.
Qed.

(** C4, for the transfer of the send-transaction demo. *)
Lemma write_executes_once_witness :
  let acc := {| account_address := "0x1" |} in
  let transfer := {| contractAddress := "0x049d"; entrypoint := "transfer";
                     calldata := ["0x1"; "1"; "0"] |} in
  let ctx := {| ctx_account := Some acc; ctx_connector := None;
                ctx_library := {| chainId := "0x534e5f474f45524c49" |} |} in
  let p := {| calls := Some [transfer]; abis := None; options := None;
              props := {| callbacks := [] |} |} in
  let vars := {| var_calls := None; var_abis := None; var_options := None |} in
  let req := {| req_account := acc; req_calls := [transfer]; req_abis := None;
                req_options := None |} in
  (ctx_account ctx = Some acc /\ calls p = Some [transfer])
  /\ MutationRunner.issued
       (fst (writeAsync (useContractWrite ctx p MutationRunner.init) vars MutationRunner.init))
     = [req]
  /\ run_task (mutationFn (Some acc) (Some [transfer]) None None vars)
              [inr {| transaction_hash := "0xABC" |}]
     = ([req], Some (inr {| transaction_hash := "0xABC" |})).
Proof.
  intros acc transfer ctx p vars req.
  split; [split; reflexivity|].
  pose proof (write_executes_once ctx p vars vars MutationRunner.init acc transfer []
                eq_refl eq_refl) as H.
  cbv zeta in H. destruct H as (Hrun & _ & Hiss & _).
  split; [exact Hiss | exact (Hrun _ [])].
Defined.

Lemma take_snoc_fresh id k l :
  Forall (fun q => fst q <> id) l ->
  MutationRunner.take id (l ++ [(id, k)]) = Some (k, l).
Proof.
  induction 1 as [|[i k'] l Hq _ IH]; cbn.
  - now rewrite Nat.eqb_refl.
  - cbn in Hq. destruct (Nat.eqb_spec i id); [contradiction|]. now rewrite IH.
Qed.

(** What [execute] answers reaches the hook: the response becomes [data],
    a rejection becomes [error], and the invocation is no longer in flight. *)
Lemma write_result_lands (ctx : StarknetContext) (p : UseContractWriteProps)
    (vars : ContractWriteVariables) (s : MutationRunner.state)
    (acc : AccountInterface) (c : Call) (cs : list Call) (answer : ExecuteAnswer) :
  ctx_account ctx = Some acc ->
  calls p = Some (c :: cs) ->
  Forall (fun q => fst q < MutationRunner.next_id s) (MutationRunner.inflight s) ->
  let s1 := write (useContractWrite ctx p s) vars s in
  let s2 := MutationRunner.resolve (MutationRunner.next_id s) answer s1 in
  MutationRunner.inflight s2 = MutationRunner.inflight s
  /\ match answer with
     | inr d => status (useContractWrite ctx p s2) = st_success
                /\ data (useContractWrite ctx p s2) = Some d
     | inl e => status (useContractWrite ctx p s2) = st_error
                /\ error (useContractWrite ctx p s2) = Some e
     end.
Proof.
  intros Hacc Hcalls Hwf s1 s2.
  assert (Hs1 : s1 = fst (MutationRunner.runAsync
                            (mutationFn (Some acc) (Some (c :: cs)) (abis p) (options p))
                            vars s)).
  { subst s1. cbn. unfold MutationRunner.run. now rewrite Hacc, Hcalls. }
  rewrite (runAsync_await _ vars s _ _ (mutationFn_executes acc c cs _ _ vars)) in Hs1.
  cbn [fst] in Hs1.
  clearbody s1. subst s1. subst s2.
  unfold MutationRunner.resolve. cbn [MutationRunner.inflight].
  rewrite take_snoc_fresh.
  2:{ eapply Forall_impl; [exact Hwf|]. cbn. intros q Hq. lia. }
  cbn [MutationRunner.observed]. rewrite Nat.eqb_refl.
  destruct answer; cbn; auto.
Qed.

(** C9. The key [useContractWrite] builds is a function of the account, the
    calls, the ABIs and the options alone: two renders agree on the key
    exactly when they agree on these four, whatever else differs between
    them (connector, provider, callbacks), and the key is the one-element
    list tagged [contractWrite] that carries the four. *)
Theorem mutationKey_pure (ctx1 ctx2 : StarknetContext) (p1 p2 : UseContractWriteProps) :
  (opt_mutationKey (useContractWrite_options ctx1 p1)
   = opt_mutationKey (useContractWrite_options ctx2 p2)
   <-> ctx_account ctx1 = ctx_account ctx2 /\ calls p1 = calls p2
       /\ abis p1 = abis p2 /\ options p1 = options p2)
  /\ opt_mutationKey (useContractWrite_options ctx1 p1)
     = [ {| entity := "contractWrite"; key_account := ctx_account ctx1;
            key_calls := calls p1; key_abis := abis p1; key_options := options p1 |} ]
  /\ opt_mutationKey (useContractWrite_options ctx1 p1)
     = mutationKey (ctx_account ctx1) (calls p1) (abis p1) (options p1)
  /\ (forall a c b o (a' : option AccountInterface) c' b' o',
        mutationKey a c b o = mutationKey a' c' b' o'
        <-> a = a' /\ c = c' /\ b = b' /\ o = o').
Proof.
  assert (Hkey : forall a c b o (a' : option AccountInterface) c' b' o',
             mutationKey a c b o = mutationKey a' c' b' o'
             <-> a = a' /\ c = c' /\ b = b' /\ o = o').
  { intros a c b o a' c' b' o'. unfold mutationKey. split.
    - intros H. injection H as Ha Hc Hb Ho. auto.
    - intros (-> & -> & -> & ->). reflexivity. }
  split; [|split; [reflexivity | split; [reflexivity | exact Hkey]]].
  unfold useContractWrite_options, mutationKey, useAccount. cbn. split.
  - intros H. injection H as Ha Hc Hb Ho. auto.
  - intros (-> & -> & -> & ->). reflexivity.
Qed.

(** ** useSwitchNetwork *)

(** The hook hands out the connector's member and adds nothing to it. *)
Lemma useSwitchNetwork_absent (ctx : StarknetContext) :
  switchNetwork (useSwitchNetwork ctx) = None
  <-> ctx_connector ctx = None
      \/ exists c, ctx_connector ctx = Some c /\ conn_switchNetwork c = None.
Proof.
  unfold useSwitchNetwork, useAccount. cbn.
  destruct (ctx_connector ctx) as [c|]; split.
  - intros H. right. exists c. auto.
  - intros [H | (c' & H & Hc)]; [discriminate|]. now injection H as ->.
  - auto.
  - reflexivity.
Qed.

(** C7, as the code has it.  [useSwitchNetwork] returns the active
    connector's [switchNetwork] member unchanged: calling it is calling the
    connector's own function when the connector has one; when there is no
    active connector, or the connector has no such member, the returned
    [switchNetwork] is [undefined], and calling it raises the engine's
    TypeError, which is no unsupported-operation error. *)
Theorem useSwitchNetwork_delegates (ctx : StarknetContext) (chain : string) :
  js_call "switchNetwork" (switchNetwork (useSwitchNetwork ctx)) chain
  = match ctx_connector ctx with
    | Some c =>
        match conn_switchNetwork c with
        | Some f => f chain
        | None => inl (TypeError_not_a_function "switchNetwork")
        end
    | None => inl (TypeError_not_a_function "switchNetwork")
    end
  /\ (switchNetwork (useSwitchNetwork ctx) = None ->
      forall msg,
        js_call "switchNetwork" (switchNetwork (useSwitchNetwork ctx)) chain
        <> inl (UnsupportedOperationError msg)).
Proof.
  split.
  - unfold useSwitchNetwork, useAccount. cbn.
    destruct (ctx_connector ctx) as [c|]; [destruct (conn_switchNetwork c)|]; reflexivity.
  - intros -> msg. cbn. unfold TypeError_not_a_function, UnsupportedOperationError.
    intros H. injection H as Hname _. discriminate Hname.
Qed.

(** C7, as the specification words it, fails: with an active connector that
    has no [switchNetwork] member the hook returns [undefined], and calling
    that raises a TypeError, not an unsupported-operation error. *)
Lemma useSwitchNetwork_no_explicit_error :
  let c := {| conn_id := "burner"; conn_name := "Burner wallet";
              conn_switchNetwork := None |} in
  let ctx := {| ctx_account := Some {| account_address := "0x1" |};
                ctx_connector := Some c;
                ctx_library := {| chainId := "0x534e5f474f45524c49" |} |} in
  ctx_connector ctx = Some c
  /\ conn_switchNetwork c = None
  /\ switchNetwork (useSwitchNetwork ctx) = None
  /\ js_call "switchNetwork" (switchNetwork (useSwitchNetwork ctx)) "0x534e5f4d41494e"
     = inl (TypeError_not_a_function "switchNetwork")
  /\ ~ (exists msg,
          js_call "switchNetwork" (switchNetwork (useSwitchNetwork ctx)) "0x534e5f4d41494e"
          = inl (UnsupportedOperationError msg)).
Proof.
  cbv zeta. repeat split.
  intros [msg H]. cbn in H. unfold TypeError_not_a_function, UnsupportedOperationError in H.
  injection H as Hname _. discriminate Hname.
Qed.

(** ** The runner's reset *)

Lemma reset_idempotent (s : MutationRunner.state) :
  MutationRunner.reset (MutationRunner.reset s) = MutationRunner.reset s.
Proof. unfold MutationRunner.reset. cbn. reflexivity. Qed.

(** A result that arrives after a reset is dropped: the hook stays idle. *)
Lemma resolve_after_reset (id : nat) (answer : ExecuteAnswer) (s : MutationRunner.state) :
  MutationRunner.status (MutationRunner.resolve id answer (MutationRunner.reset s)) = st_idle
  /\ MutationRunner.data (MutationRunner.resolve id answer (MutationRunner.reset s)) = None
  /\ MutationRunner.error (MutationRunner.resolve id answer (MutationRunner.reset s)) = None.
Proof.
  unfold MutationRunner.resolve. cbn.
  destruct (MutationRunner.take id (MutationRunner.inflight s)) as [[k rest]|]; cbn; [|auto].
  destruct (k answer); cbn; auto.
Qed.

(** C8. Calling [reset()] of [useContractWrite] twice in a row leaves the
    runner exactly where one call leaves it: the status is idle and data and
    error are cleared after the first call and after the second, and [reset]
    is defined on every state, also with an invocation in flight. *)
Theorem reset_twice_is_reset_once (ctx : StarknetContext) (p : UseContractWriteProps)
    (s : MutationRunner.state) :
  let once := reset (useContractWrite ctx p s) s in
  let twice := reset (useContractWrite ctx p once) once in
  twice = once
  /\ status (useContractWrite ctx p once) = st_idle
  /\ data (useContractWrite ctx p once) = None
  /\ error (useContractWrite ctx p once) = None
  /\ isIdle (useContractWrite ctx p once) = true
  /\ status (useContractWrite ctx p twice) = st_idle
  /\ data (useContractWrite ctx p twice) = None
  /\ error (useContractWrite ctx p twice) = None
  /\ MutationRunner.inflight once = MutationRunner.inflight s
  /\ MutationRunner.issued once = MutationRunner.issued s.
Proof.
  intros once twice.
  assert (Honce : once = MutationRunner.reset s) by reflexivity.
  assert (Htwice : twice = MutationRunner.reset once) by reflexivity.
  assert (Heq : twice = once) by (rewrite Htwice, Honce; apply reset_idempotent).
  split; [exact Heq|]. rewrite Heq, Honce. cbn. repeat split.
Qed.

(** ** useBalance *)

Section BalanceProperties.

Context (ethByChainId : string -> option string)
        (useContractRead : UseContractReadArgs -> QueryCache.state
                           -> BalanceResult.result * QueryCache.state).

(** C10, as the code behaves.  Whatever its arguments, the context and the
    read hook it is given, [useBalance] throws the ReferenceError
    "compiledErc20 is not defined" while it builds the argument object; it
    returns no result, [useContractRead] is not reached and the query cache
    is left as it was: no [balanceOf] read is issued, with or without a
    token. *)
Theorem useBalance_throws_on_every_call (ctx : StarknetContext) (a : UseBalanceArgs)
    (c : QueryCache.state) :
  useBalance ethByChainId useContractRead ctx a c
  = (inl {| err_name := "ReferenceError";
            err_message := "compiledErc20 is not defined" |}, c)
  /\ QueryCache.calls (snd (useBalance ethByChainId useContractRead ctx a c))
     = QueryCache.calls c
  /\ (forall r, fst (useBalance ethByChainId useContractRead ctx a c) <> inr r).
Proof.
  assert (H : useBalance ethByChainId useContractRead ctx a c
              = (inl (ReferenceError "compiledErc20"), c)).
  { unfold useBalance, compiledErc20. reflexivity. }
  rewrite H. split; [reflexivity|]. split; [reflexivity|].
  intros r. cbn. discriminate.
Qed.


End BalanceProperties.

(** ** The query cache *)

Section CacheLemmas.

Import QueryCache.

Implicit Types (c : state) (k : RequestKey) (e : QueryEntry) (l : list (nat * nat)).

Lemma entry_of_put k e c : entry_of (put k e c) k = e.
Proof. unfold entry_of, put. cbn. now rewrite lookup_insert_eq. Qed.

Lemma entry_of_lookup k e c : entries c !! k = Some e -> entry_of c k = e.
Proof. unfold entry_of. now intros ->. Qed.

Lemma shared_snoc l n a : fst <$> last (l ++ [(n, a)]) = Some n.
Proof. now rewrite last_snoc. Qed.

Lemma shared_none e : shared e = None -> inflight e = [].
Proof.
  unfold shared. destruct (inflight e) as [|p l] using rev_ind; [reflexivity|].
  rewrite last_snoc. discriminate.
Qed.

Lemma attempt_of_app_fresh n l l' :
  Forall (fun p => fst p <> n) l -> attempt_of n (l ++ l') = attempt_of n l'.
Proof.
  unfold attempt_of. induction 1 as [|p l Hp _ IH]; [reflexivity|].
  cbn. destruct (Nat.eqb_spec (fst p) n); [contradiction | exact IH].
Qed.

Lemma attempt_of_head n a l : attempt_of n ((n, a) :: l) = Some a.
Proof. unfold attempt_of. cbn. now rewrite Nat.eqb_refl. Qed.

Lemma attempt_of_without n m l : n <> m -> attempt_of n (without m l) = attempt_of n l.
Proof.
  intros Hne. unfold attempt_of, without. induction l as [|p l IH]; [reflexivity|].
  rewrite filter_cons. cbn. destruct (decide (fst p <> m)) as [Hp | Hp]; cbn.
  - destruct (Nat.eqb_spec (fst p) n); [reflexivity | exact IH].
  - destruct (Nat.eqb_spec (fst p) n) as [Heq | _]; [|exact IH].
    exfalso. apply Hp. congruence.
Qed.

Lemma attempt_of_reattempt_other n m a l :
  n <> m -> attempt_of n (reattempt m a l) = attempt_of n l.
Proof.
  intros Hne. unfold attempt_of, reattempt. induction l as [|p l IH]; [reflexivity|].
  cbn. destruct (Nat.eqb_spec (fst p) m) as [Hm | Hm]; cbn.
  - destruct (Nat.eqb_spec m n); [congruence|].
    destruct (Nat.eqb_spec (fst p) n); [congruence | exact IH].
  - destruct (Nat.eqb_spec (fst p) n); [reflexivity | exact IH].
Qed.

Lemma attempt_of_reattempt n a a0 l :
  attempt_of n l = Some a0 -> attempt_of n (reattempt n a l) = Some a.
Proof.
  unfold attempt_of, reattempt. induction l as [|p l IH]; [discriminate|].
  cbn. destruct (Nat.eqb_spec (fst p) n) as [Hp | Hp]; cbn.
  - now rewrite Nat.eqb_refl.
  - destruct (Nat.eqb_spec (fst p) n); [contradiction | exact IH].
Qed.

(** *** The four ways of [getOrFetch] *)

Lemma getOrFetch_disabled k o c :
  opt_enabled o = false ->
  getOrFetch k o c
  = (subscribe o (entry_of c k), None, put k (subscribe o (entry_of c k)) c).
Proof. intros H. unfold getOrFetch. now rewrite H. Qed.

Lemma getOrFetch_joins k o c n :
  opt_enabled o = true ->
  shared (entry_of c k) = Some n ->
  getOrFetch k o c
  = (subscribe o (entry_of c k), Some n, put k (subscribe o (entry_of c k)) c).
Proof.
  intros H Hs. unfold getOrFetch. rewrite H. cbv [negb].
  change (shared (subscribe o (entry_of c k))) with (shared (entry_of c k)).
  now rewrite Hs.
Qed.

Lemma getOrFetch_fresh k o c :
  opt_enabled o = true ->
  shared (entry_of c k) = None ->
  needs_fetch c (entry_of c k) = false ->
  getOrFetch k o c
  = (subscribe o (entry_of c k), None, put k (subscribe o (entry_of c k)) c).
Proof.
  intros H Hs Hn. unfold getOrFetch. rewrite H. cbv [negb].
  change (shared (subscribe o (entry_of c k))) with (shared (entry_of c k)).
  change (needs_fetch c (subscribe o (entry_of c k))) with (needs_fetch c (entry_of c k)).
  now rewrite Hs, Hn.
Qed.

Lemma getOrFetch_issues k o c :
  opt_enabled o = true ->
  shared (entry_of c k) = None ->
  needs_fetch c (entry_of c k) = true ->
  getOrFetch k o c
  = (entry_of (snd (issue k (subscribe o (entry_of c k)) c)) k,
     Some (next_fetch c),
     snd (issue k (subscribe o (entry_of c k)) c)).
Proof.
  intros H Hs Hn. unfold getOrFetch. rewrite H. cbv [negb].
  change (shared (subscribe o (entry_of c k))) with (shared (entry_of c k)).
  change (needs_fetch c (subscribe o (entry_of c k))) with (needs_fetch c (entry_of c k)).
  now rewrite Hs, Hn.
Qed.

Lemma issue_calls k e c :
  calls (snd (issue k e c))
  = calls c ++ [{| nc_key := k; nc_fetch := next_fetch c; nc_attempt := 0; nc_delay := 0 |}].
Proof. reflexivity. Qed.

Lemma issue_shared k e c : shared (entry_of (snd (issue k e c)) k) = Some (next_fetch c).
Proof.
  unfold issue, entry_of. cbn. rewrite lookup_insert_eq. cbn. apply shared_snoc.
Qed.

End CacheLemmas.

Section CacheInvariant.

Import QueryCache.

Implicit Types (c : state) (k : RequestKey) (e : QueryEntry) (l : list (nat * nat)).

Lemma wf_init cf : wf (init cf).
Proof.
  split; [cbn; lia|]. intros k e H. cbn in H. now rewrite lookup_empty in H.
Qed.

Lemma wf_entry_of c k :
  wf c ->
  applied (entry_of c k) < next_fetch c
  /\ Forall (fun p => fst p < next_fetch c) (inflight (entry_of c k)).
Proof.
  intros [Hpos Hwf]. unfold entry_of. destruct (entries c !! k) as [e|] eqn:He; cbn.
  - now apply (Hwf k).
  - split; [exact Hpos | constructor].
Qed.

Lemma wf_put k e c :
  wf c ->
  applied e < next_fetch c ->
  Forall (fun p => fst p < next_fetch c) (inflight e) ->
  wf (put k e c).
Proof.
  intros [Hpos Hwf] Ha Hi. split; [exact Hpos|]. intros k' e' H. cbn in H.
  destruct (decide (k = k')) as [-> | Hne].
  - rewrite lookup_insert_eq in H. injection H as <-. auto.
  - rewrite lookup_insert_ne in H by exact Hne. now apply (Hwf k').
Qed.

Lemma wf_issue k e c :
  wf c ->
  applied e < next_fetch c ->
  Forall (fun p => fst p < next_fetch c) (inflight e) ->
  wf (snd (issue k e c)).
Proof.
  intros [Hpos Hwf] Ha Hi. split; [cbn; lia|]. intros k' e' H. cbn in H.
  destruct (decide (k = k')) as [-> | Hne].
  - rewrite lookup_insert_eq in H. injection H as <-. cbn. split; [lia|].
    apply Forall_app. split.
    + eapply Forall_impl; [exact Hi|]. cbn. intros; lia.
    + repeat constructor.
  - rewrite lookup_insert_ne in H by exact Hne.
    destruct (Hwf k' e' H) as [Ha' Hi']. cbn. split; [lia|].
    eapply Forall_impl; [exact Hi'|]. cbn. intros; lia.
Qed.

Lemma wf_refetch k c : wf c -> wf (snd (refetch k c)).
Proof.
  intros H. destruct (wf_entry_of c k H). now apply wf_issue.
Qed.

Lemma wf_getOrFetch k o c : wf c -> wf (snd (getOrFetch k o c)).
Proof.
  intros H. destruct (wf_entry_of c k H) as [Ha Hi].
  unfold getOrFetch.
  destruct (negb (opt_enabled o)); [now apply wf_put|].
  destruct (shared _); [now apply wf_put|].
  destruct (needs_fetch _ _); [|now apply wf_put].
  pose proof (wf_issue k (subscribe o (entry_of c k)) c H Ha Hi) as Hw.
  destruct (issue k (subscribe o (entry_of c k)) c) as [n c']. exact Hw.
Qed.

Lemma wf_advance dt c : wf c -> wf (advance dt c).
Proof. intros H. exact H. Qed.

Lemma Forall_without n l (P : nat * nat -> Prop) : Forall P l -> Forall P (without n l).
Proof.
  intros H. unfold without. rewrite Forall_forall in *. intros p Hp.
  apply H. now apply list_elem_of_filter in Hp as [_ Hp].
Qed.

Lemma Forall_reattempt n a l m :
  n < m -> Forall (fun p => fst p < m) l -> Forall (fun p => fst p < m) (reattempt n a l).
Proof.
  intros Hn H. unfold reattempt. apply Forall_fmap. eapply Forall_impl; [exact H|].
  intros p Hp. unfold compose. cbn in *. destruct (Nat.eqb (fst p) n); cbn; lia.
Qed.

Lemma attempt_of_bound n a l m :
  attempt_of n l = Some a -> Forall (fun p => fst p < m) l -> n < m.
Proof.
  unfold attempt_of. intros H Hall. induction Hall as [|p l Hp _ IH]; [discriminate|].
  cbn in H. destruct (Nat.eqb_spec (fst p) n) as [<- | _]; [exact Hp | now apply IH].
Qed.

Lemma wf_respond n k r c : wf c -> wf (respond n k r c).
Proof.
  intros H. unfold respond.
  destruct (entries c !! k) as [e|] eqn:He; [|exact H].
  destruct (attempt_of n (inflight e)) as [a|] eqn:Ha; [|exact H].
  destruct H as [Hpos Hwf]. destruct (Hwf k e He) as [Hap Hin].
  pose proof (attempt_of_bound n a _ _ Ha Hin) as Hn.
  destruct (retries (cfg c) e a r).
  - split; [exact Hpos|]. intros k' e' H'. cbn in H'.
    destruct (decide (k = k')) as [-> | Hne].
    + rewrite lookup_insert_eq in H'. injection H' as <-. cbn.
      split; [exact Hap | now apply Forall_reattempt].
    + rewrite lookup_insert_ne in H' by exact Hne. now apply (Hwf k').
  - apply wf_put; [now split | |].
    + unfold settle. destruct (Nat.ltb (applied e) n); [destruct r|]; cbn; lia.
    + unfold settle. destruct (Nat.ltb (applied e) n); [destruct r|]; cbn;
        now apply Forall_without.
Qed.

End CacheInvariant.

Section CacheProperties.

Import QueryCache.

Implicit Types (c : state) (k : RequestKey) (e : QueryEntry) (l : list (nat * nat)).

Lemma respond_settles n k r c e a :
  entries c !! k = Some e ->
  attempt_of n (inflight e) = Some a ->
  retries (cfg c) e a r = false ->
  respond n k r c = put k (settle n r (now c) e) c.
Proof. intros He Ha Hr. unfold respond. now rewrite He, Ha, Hr. Qed.

Lemma respond_retries n k r c e a :
  entries c !! k = Some e ->
  attempt_of n (inflight e) = Some a ->
  retries (cfg c) e a r = true ->
  respond n k r c
  = {| cfg := cfg c;
       entries :=
         <[k := {| key := key e; data := data e; error := error e; status := status e;
                   lastFetchedAt := lastFetchedAt e; observerCount := observerCount e;
                   watch := watch e; retry := retry e;
                   inflight := reattempt n (S a) (inflight e); applied := applied e |}]>
           (entries c);
       now := now c;
       calls := calls c ++ [retry_call (cfg c) k n a];
       next_fetch := next_fetch c |}.
Proof. intros He Ha Hr. unfold respond. now rewrite He, Ha, Hr. Qed.

Lemma settle_lands n v t e :
  applied e < n ->
  settle n (inr v) t e
  = {| key := key e; data := Some v; error := None; status := q_success;
       lastFetchedAt := t; observerCount := observerCount e; watch := watch e;
       retry := retry e; inflight := without n (inflight e); applied := n |}.
Proof.
  intros H. unfold settle. destruct (Nat.ltb_spec (applied e) n); [reflexivity | lia].
Qed.

Lemma settle_superseded n r t e :
  n <= applied e ->
  settle n r t e
  = {| key := key e; data := data e; error := error e; status := status e;
       lastFetchedAt := lastFetchedAt e; observerCount := observerCount e;
       watch := watch e; retry := retry e; inflight := without n (inflight e);
       applied := applied e |}.
Proof.
  intros H. unfold settle. destruct (Nat.ltb_spec (applied e) n); [lia | reflexivity].
Qed.

Lemma issue_entry k e c :
  entry_of (snd (issue k e c)) k
  = {| key := key e; data := data e; error := error e;
       status := match status e with q_idle => q_loading | st => st end;
       lastFetchedAt := lastFetchedAt e; observerCount := observerCount e;
       watch := watch e; retry := retry e;
       inflight := inflight e ++ [(next_fetch c, 0)]; applied := applied e |}.
Proof. unfold issue, entry_of. cbn [snd entries]. now rewrite lookup_insert_eq. Qed.

(** C2. Two callers of [getOrFetch] with the same key and the guard on, one
    right after the other: the second adds no network call, so the two make at
    most one; a caller who waits for a fetch waits for the one the other
    waits for; and when the entry is stale or absent with nothing in flight,
    exactly one network call is made for the key, both wait for that fetch,
    it is the only one in flight, and its result is what the key's one entry
    shows to both. *)
Theorem getOrFetch_deduplicates (c : state) (k : RequestKey) (o1 o2 : QueryOptions) :
  wf c ->
  opt_enabled o1 = true ->
  opt_enabled o2 = true ->
  let first := getOrFetch k o1 c in
  let second := getOrFetch k o2 (snd first) in
  calls (snd second) = calls (snd first)
  /\ (exists new, calls (snd first) = calls c ++ new /\ length new <= 1)
  /\ (forall n, snd (fst first) = Some n -> snd (fst second) = Some n)
  /\ (shared (entry_of c k) = None ->
      needs_fetch c (entry_of c k) = true ->
      calls_for k (snd second)
      = calls_for k c ++ [{| nc_key := k; nc_fetch := next_fetch c; nc_attempt := 0;
                             nc_delay := 0 |}]
      /\ snd (fst first) = Some (next_fetch c)
      /\ snd (fst second) = Some (next_fetch c)
      /\ inflight (entry_of (snd second) k) = [(next_fetch c, 0)]
      /\ forall v,
           data (entry_of (respond (next_fetch c) k (inr v) (snd second)) k) = Some v
           /\ status (entry_of (respond (next_fetch c) k (inr v) (snd second)) k) = q_success).
Proof.
  intros Hwf H1 H2 first second.
  destruct (shared (entry_of c k)) as [n|] eqn:Hs.
  - (* a fetch is in flight: both join it *)
    assert (Hf : first = (subscribe o1 (entry_of c k), Some n,
                          put k (subscribe o1 (entry_of c k)) c))
      by (now apply getOrFetch_joins).
    assert (Hsec : second = (subscribe o2 (subscribe o1 (entry_of c k)), Some n,
                             put k (subscribe o2 (subscribe o1 (entry_of c k)))
                                 (put k (subscribe o1 (entry_of c k)) c))).
    { subst second. rewrite Hf. cbn [snd].
      rewrite (getOrFetch_joins k o2 _ n H2); rewrite entry_of_put; [reflexivity | exact Hs]. }
    rewrite Hsec, Hf. cbn [fst snd]. split; [reflexivity|].
    split; [exists []; split; [cbn; now rewrite app_nil_r | cbn; lia]|].
    split; [now intros m [= <-]|]. intros Habs. discriminate Habs.
  - destruct (needs_fetch c (entry_of c k)) eqn:Hn.
    + (* stale or absent: the first caller issues, the second joins *)
      assert (Hf : first = (entry_of (snd (issue k (subscribe o1 (entry_of c k)) c)) k,
                            Some (next_fetch c),
                            snd (issue k (subscribe o1 (entry_of c k)) c)))
        by (now apply getOrFetch_issues).
      set (c1 := snd (issue k (subscribe o1 (entry_of c k)) c)) in *.
      assert (Hsec : second = (subscribe o2 (entry_of c1 k), Some (next_fetch c),
                               put k (subscribe o2 (entry_of c1 k)) c1)).
      { subst second. rewrite Hf. cbn [snd].
        apply getOrFetch_joins; [exact H2 | apply issue_shared]. }
      assert (He1 : inflight (entry_of c1 k) = [(next_fetch c, 0)]).
      { unfold c1. rewrite issue_entry. cbn [inflight subscribe].
        now rewrite (shared_none _ Hs). }
      rewrite Hsec, Hf. cbn [fst snd]. split; [reflexivity|].
      split; [exists [{| nc_key := k; nc_fetch := next_fetch c; nc_attempt := 0;
                         nc_delay := 0 |}]; split; [reflexivity | cbn; lia]|].
      split; [now intros n [= <-]|].
      intros _ _. split.
      { unfold calls_for. cbn. rewrite filter_app. f_equal.
        rewrite filter_cons. destruct (decide _) as [_ | Hne]; [reflexivity|].
        now exfalso; apply Hne. }
      split; [reflexivity|]. split; [reflexivity|].
      split; [now rewrite entry_of_put|].
      intros v.
      assert (Hlook : entries (put k (subscribe o2 (entry_of c1 k)) c1) !! k
                      = Some (subscribe o2 (entry_of c1 k)))
        by (cbn; apply lookup_insert_eq).
      assert (Hatt : attempt_of (next_fetch c) (inflight (subscribe o2 (entry_of c1 k)))
                     = Some 0)
        by (cbn [inflight subscribe]; rewrite He1; apply attempt_of_head).
      rewrite (respond_settles (next_fetch c) k (inr v) _ _ _ Hlook Hatt eq_refl),
        entry_of_put.
      rewrite settle_lands; [cbn; auto|].
      unfold c1. rewrite issue_entry. cbn [applied subscribe].
      apply (wf_entry_of c k Hwf).
    + (* fresh data: nobody fetches *)
      assert (Hf : first = (subscribe o1 (entry_of c k), None,
                            put k (subscribe o1 (entry_of c k)) c))
        by (now apply getOrFetch_fresh).
      assert (Hsec : second = (subscribe o2 (subscribe o1 (entry_of c k)), None,
                               put k (subscribe o2 (subscribe o1 (entry_of c k)))
                                   (put k (subscribe o1 (entry_of c k)) c))).
      { subst second. rewrite Hf. cbn [snd].
        rewrite (getOrFetch_fresh k o2 _ H2); rewrite entry_of_put;
          [reflexivity | exact Hs | exact Hn]. }
      rewrite Hsec, Hf. cbn [fst snd]. split; [reflexivity|].
      split; [exists []; split; [cbn; now rewrite app_nil_r | cbn; lia]|].
      split; [discriminate|]. intros _ Habs. discriminate Habs.
Qed.

(** C2, on an empty cache. *)
Lemma getOrFetch_deduplicates_witness :
  let cf := {| staleTime := 0; retryBase := 1000; retryCap := 4000; maxAttempts := 3 |} in
  let k := {| rk_entity := "readContract"; rk_account := Some "0x049d";
              rk_params := [Some "balanceOf"; Some "0x1"] |} in
  let o := {| opt_watch := false; opt_retry := false; opt_enabled := true |} in
  let first := getOrFetch k o (init cf) in
  let second := getOrFetch k o (snd first) in
  (wf (init cf) /\ opt_enabled o = true)
  /\ calls (snd second) = calls (snd first)
  /\ calls_for k (snd second)
     = [{| nc_key := k; nc_fetch := 1; nc_attempt := 0; nc_delay := 0 |}]
  /\ snd (fst first) = Some 1
  /\ snd (fst second) = Some 1.
Proof.
  intros cf k o first second.
  split; [split; [apply wf_init | reflexivity]|].
  pose proof (getOrFetch_deduplicates (init cf) k o o (wf_init cf) eq_refl eq_refl) as H.
  cbv zeta in H. destruct H as (Hcalls & _ & _ & Hone).
  destruct (Hone eq_refl eq_refl) as (Hfor & Hp1 & Hp2 & _).
  split; [exact Hcalls|]. split; [exact Hfor|]. split; [exact Hp1 | exact Hp2].
Defined.

End CacheProperties.

Section CacheOrdering.

Import QueryCache.

Implicit Types (c : state) (k : RequestKey) (e : QueryEntry) (l : list (nat * nat)).

Lemma refetch_twice k c :
  wf c ->
  let a := refetch k c in
  let b := refetch k (snd a) in
  fst a = next_fetch c /\ fst b = S (next_fetch c)
  /\ exists e,
       entries (snd b) !! k = Some e
       /\ attempt_of (fst a) (inflight e) = Some 0
       /\ attempt_of (fst b) (inflight e) = Some 0
       /\ applied e < fst a
       /\ retry e = retry (entry_of c k).
Proof.
  intros Hwf a b. destruct (wf_entry_of c k Hwf) as [Hap Hin].
  split; [reflexivity|]. split; [reflexivity|].
  exists (entry_of (snd b) k). split.
  { subst b a. unfold refetch, entry_of. cbn [snd issue entries].
    now rewrite lookup_insert_eq. }
  subst b a. unfold refetch. rewrite !issue_entry.
  cbn [inflight applied retry fst issue snd next_fetch].
  split; [|split; [|split; [exact Hap | reflexivity]]].
  - rewrite <- app_assoc. rewrite attempt_of_app_fresh; [apply attempt_of_head|].
    eapply Forall_impl; [exact Hin|]. cbn. intros p Hp. lia.
  - rewrite attempt_of_app_fresh; [apply attempt_of_head|].
    apply Forall_app. split.
    + eapply Forall_impl; [exact Hin|]. cbn. intros p Hp. lia.
    + repeat constructor. cbn. lia.
Qed.

Lemma retries_retry cf e e' a r :
  retry e = retry e' -> retries cf e a r = retries cf e' a r.
Proof. intros H. unfold retries. now rewrite H. Qed.

Lemma attempt_of_without_same n l : attempt_of n (without n l) = None.
Proof.
  unfold attempt_of, without. destruct (find _ _) as [p|] eqn:Hf; [|reflexivity].
  apply find_some in Hf as [Hin Hp]. apply list_elem_of_In, list_elem_of_filter in Hin.
  apply Nat.eqb_eq in Hp. tauto.
Qed.

Lemma settle_showing n r t e :
  applied e < n ->
  showing (settle n r t e) = shown r
  /\ applied (settle n r t e) = n
  /\ retry (settle n r t e) = retry e
  /\ inflight (settle n r t e) = without n (inflight e).
Proof.
  intros H. unfold settle. destruct (Nat.ltb_spec (applied e) n); [|lia].
  destruct r; cbn; auto.
Qed.

(** The result of a fetch in flight that nothing newer has overtaken lands,
    whether it is a value or a failure that is not taken up again. *)
Lemma respond_result_lands n k r c e a :
  entries c !! k = Some e ->
  attempt_of n (inflight e) = Some a ->
  applied e < n ->
  retries (cfg c) e a r = false ->
  entries (respond n k r c) !! k = Some (settle n r (now c) e)
  /\ cfg (respond n k r c) = cfg c.
Proof.
  intros He Ha Hlt Hr. rewrite (respond_settles n k r c e a He Ha Hr).
  cbn. now rewrite lookup_insert_eq.
Qed.

(** An answer for a fetch that is not in flight is ignored. *)
Lemma respond_absent n k r c e :
  entries c !! k = Some e -> attempt_of n (inflight e) = None -> respond n k r c = c.
Proof. intros He Ha. unfold respond. now rewrite He, Ha. Qed.

(** What an answer to fetch [n] leaves alone: the options, the other fetches
    in flight, and, once a fetch issued after [n] has landed, everything the
    entry shows. *)
Lemma respond_other n m k r c e :
  entries c !! k = Some e ->
  n <> m ->
  exists e',
    entries (respond n k r c) !! k = Some e'
    /\ retry e' = retry e
    /\ cfg (respond n k r c) = cfg c
    /\ attempt_of m (inflight e') = attempt_of m (inflight e)
    /\ applied e' <= Nat.max (applied e) n
    /\ (n <= applied e -> showing e' = showing e /\ applied e' = applied e).
Proof.
  intros He Hne. unfold respond. rewrite He.
  destruct (attempt_of n (inflight e)) as [a|].
  2:{ exists e. split; [exact He|]. repeat split; lia. }
  destruct (retries (cfg c) e a r).
  - eexists. cbn. rewrite lookup_insert_eq. split; [reflexivity|]. cbn.
    split; [reflexivity|]. split; [reflexivity|].
    split; [apply attempt_of_reattempt_other; congruence|].
    split; [lia|]. auto.
  - eexists. cbn. rewrite lookup_insert_eq. split; [reflexivity|].
    unfold settle. destruct (Nat.ltb_spec (applied e) n); [destruct r|]; cbn;
      (split; [reflexivity|]); (split; [reflexivity|]);
      (split; [apply attempt_of_without; congruence|]);
      (split; [lia|]); intros Hle; try lia; auto.
Qed.

(** While answers for the older fetch [a] and the newer fetch [b] arrive in
    any order and number, either [b] is still in flight and nothing issued
    after [a] has landed, or [b] has settled and the entry shows the answer
    that settled it. *)
Lemma respond_all_newer_wins k (a b : nat) (c0 : state) (e0 : QueryEntry) :
  a < b ->
  entries c0 !! k = Some e0 ->
  attempt_of b (inflight e0) = Some 0 ->
  applied e0 < b ->
  forall answers,
    Forall (fun ev => fst ev = a \/ fst ev = b) answers ->
    exists e,
      entries (respond_all k answers c0) !! k = Some e
      /\ retry e = retry e0
      /\ cfg (respond_all k answers c0) = cfg c0
      /\ ((exists attempt, attempt_of b (inflight e) = Some attempt /\ applied e < b)
          \/ (attempt_of b (inflight e) = None /\ applied e = b
              /\ exists rB attempt,
                   (b, rB) ∈ answers
                   /\ retries (cfg c0) e0 attempt rB = false
                   /\ showing e = shown rB)).
Proof.
  intros Hab He0 Ha0 Hap0 answers.
  induction answers as [|[n r] answers IH] using rev_ind; intros Hall.
  - exists e0. split; [exact He0|]. split; [reflexivity|]. split; [reflexivity|].
    left. eauto.
  - apply Forall_app in Hall as [Hall Hev]. apply Forall_inv in Hev. cbn [fst] in Hev.
    destruct (IH Hall) as (e & He & Hre & Hcfg & Hphase). clear IH.
    unfold respond_all in *. rewrite foldl_app. cbn [foldl fst snd].
    set (c := foldl (fun c' ev => respond (fst ev) k (snd ev) c') c0 answers) in *.
    destruct Hev as [-> | ->].
    + (* an answer for the older fetch *)
      destruct (respond_other a b k r c e He ltac:(lia))
        as (e' & He' & Hre' & Hcfg' & Hatt & Happ & Hsup).
      exists e'. split; [exact He'|]. split; [congruence|]. split; [congruence|].
      destruct Hphase as [(attempt & Hb & Hlt) | (Hb & Happb & rB & attempt & Hin & Hr & Hsh)].
      * left. exists attempt. split; [congruence | lia].
      * right. destruct (Hsup ltac:(lia)) as [Hsh' Happ'].
        split; [congruence|]. split; [congruence|].
        exists rB, attempt. split; [apply elem_of_app; now left|].
        split; [exact Hr | congruence].
    + (* an answer for the newer fetch *)
      destruct Hphase as [(attempt & Hb & Hlt) | (Hb & Happb & rB & attempt & Hin & Hr & Hsh)].
      * destruct (retries (cfg c) e attempt r) eqn:Hr.
        -- rewrite (respond_retries b k r c e attempt He Hb Hr).
           eexists. cbn [entries cfg]. rewrite lookup_insert_eq.
           split; [reflexivity|]. cbn [retry inflight applied].
           split; [exact Hre|]. split; [exact Hcfg|].
           left. exists (S attempt). split; [|exact Hlt].
           eapply attempt_of_reattempt. exact Hb.
        -- destruct (respond_result_lands b k r c e attempt He Hb Hlt Hr) as [He' Hcfg'].
           destruct (settle_showing b r (now c) e Hlt) as (Hsh & Happ & Hre' & Hinf).
           exists (settle b r (now c) e).
           split; [exact He'|]. split; [congruence|]. split; [congruence|].
           right. split; [rewrite Hinf; apply attempt_of_without_same|].
           split; [exact Happ|].
           exists r, attempt. split; [apply elem_of_app; right; now apply list_elem_of_singleton|].
           split; [|exact Hsh].
           rewrite <- Hr, <- Hcfg. apply retries_retry. congruence.
      * rewrite (respond_absent b k r c e He Hb).
        exists e. split; [exact He|]. split; [exact Hre|]. split; [exact Hcfg|].
        right. split; [exact Hb|]. split; [exact Happb|].
        exists rB, attempt. split; [apply elem_of_app; now left|]. auto.
Qed.

(** C3. Fetch A of a key is issued, then fetch B of the same key while A is
    still in flight.  Whatever the two fetches answer, a value or a failure,
    and in whichever order the answers arrive, the entry ends up showing B's
    result and never A's: if B's result arrives first, A's late answer changes
    nothing; if A's arrives first, B's result replaces it.  The same holds
    for any number of answers in any order (retried attempts included): as
    soon as B has settled, the entry shows the answer that settled B, and
    before that nothing issued after A can have landed. *)
Theorem later_fetch_wins (c : state) (k : RequestKey) (rA rB : FetchOutcome)
    (answers : list (nat * FetchOutcome)) :
  wf c ->
  let a := refetch k c in
  let b := refetch k (snd a) in
  let late_A := respond (fst a) k rA (respond (fst b) k rB (snd b)) in
  let late_B := respond (fst b) k rB (respond (fst a) k rA (snd b)) in
  let final := respond_all k answers (snd b) in
  fst a < fst b
  /\ (retries (cfg c) (entry_of c k) 0 rB = false ->
      showing (entry_of late_A k) = shown rB
      /\ applied (entry_of late_A k) = fst b
      /\ showing (entry_of late_B k) = shown rB
      /\ applied (entry_of late_B k) = fst b)
  /\ (Forall (fun ev => fst ev = fst a \/ fst ev = fst b) answers ->
      (attempt_of (fst b) (inflight (entry_of final k)) <> None
       /\ applied (entry_of final k) < fst b)
      \/ (exists rB' attempt,
            (fst b, rB') ∈ answers
            /\ retries (cfg c) (entry_of c k) attempt rB' = false
            /\ showing (entry_of final k) = shown rB'
            /\ applied (entry_of final k) = fst b)).
Proof.
  intros Hwf a b late_A late_B final.
  destruct (refetch_twice k c Hwf) as (HnA & HnB & e & He & HaA & HaB & Hap & Hre).
  change (fst a = next_fetch c) in HnA. change (fst b = S (next_fetch c)) in HnB.
  change (entries (snd b) !! k = Some e) in He.
  change (attempt_of (fst a) (inflight e) = Some 0) in HaA.
  change (attempt_of (fst b) (inflight e) = Some 0) in HaB.
  change (applied e < fst a) in Hap.
  assert (Hcfg : cfg (snd b) = cfg c) by reflexivity.
  assert (Hlt : fst a < fst b) by lia.
  split; [exact Hlt|]. split.
  - intros Hfinal.
    assert (Hfin : forall e', retry e' = retry e -> retries (cfg c) e' 0 rB = false).
    { intros e' H. rewrite <- Hfinal. apply retries_retry. congruence. }
    assert (HA : showing (entry_of late_A k) = shown rB
                 /\ applied (entry_of late_A k) = fst b).
    { destruct (respond_result_lands (fst b) k rB (snd b) e 0 He HaB ltac:(lia))
        as [HB _]; [rewrite Hcfg; now apply Hfin|].
      destruct (settle_showing (fst b) rB (now (snd b)) e ltac:(lia))
        as (Hsh & Happ & _ & _).
      destruct (respond_other (fst a) (fst b) k rA _ _ HB ltac:(lia))
        as (e' & He' & _ & _ & _ & _ & Hsup).
      subst late_A. rewrite (entry_of_lookup _ _ _ He').
      destruct (Hsup ltac:(lia)) as [Hsh' Happ']. split; congruence. }
    assert (HB : showing (entry_of late_B k) = shown rB
                 /\ applied (entry_of late_B k) = fst b).
    { destruct (respond_other (fst a) (fst b) k rA (snd b) e He ltac:(lia))
        as (e' & He' & Hre' & Hcfg' & Hatt & Happ & _).
      destruct (respond_result_lands (fst b) k rB _ e' 0 He' ltac:(congruence) ltac:(lia))
        as [Hland _]; [rewrite Hcfg', Hcfg; now apply Hfin|].
      destruct (settle_showing (fst b) rB (now (respond (fst a) k rA (snd b))) e'
                  ltac:(lia)) as (Hsh & Happ' & _ & _).
      subst late_B. rewrite (entry_of_lookup _ _ _ Hland). split; assumption. }
    tauto.
  - intros Hall.
    destruct (respond_all_newer_wins k (fst a) (fst b) (snd b) e Hlt He HaB ltac:(lia)
                answers Hall) as (e' & He' & Hre' & _ & Hphase).
    fold final in He'. rewrite (entry_of_lookup _ _ _ He').
    destruct Hphase as [(attempt & Hb & Hlt') | (Hb & Happ & rB' & attempt & Hin & Hr & Hsh)].
    + left. split; [congruence | exact Hlt'].
    + right. exists rB', attempt. split; [exact Hin|]. split; [|split; assumption].
      rewrite <- Hr, Hcfg. apply retries_retry. congruence.
Qed.

(** C3, on an empty cache: A answers with a value, B fails for good. *)
Lemma later_fetch_wins_witness :
  let cf := {| staleTime := 0; retryBase := 1000; retryCap := 4000; maxAttempts := 3 |} in
  let k := {| rk_entity := "readContract"; rk_account := Some "0x049d";
              rk_params := [Some "balanceOf"; Some "0x1"] |} in
  let a := refetch k (init cf) in
  let b := refetch k (snd a) in
  wf (init cf)
  /\ showing (entry_of (respond (fst a) k (inr ["10"; "0"])
                          (respond (fst b) k (inl RejectedError) (snd b))) k)
     = (None, Some RejectedError, q_error)
  /\ showing (entry_of (respond (fst b) k (inl RejectedError)
                          (respond (fst a) k (inr ["10"; "0"]) (snd b))) k)
     = (None, Some RejectedError, q_error).
Proof.
  intros cf k a b. split; [apply wf_init|].
  pose proof (later_fetch_wins (init cf) k (inr ["10"; "0"]) (inl RejectedError) []
                (wf_init cf)) as H.
  cbv zeta in H. destruct H as (_ & H & _).
  destruct (H eq_refl) as (HA & _ & HB & _).
  split; [exact HA | exact HB].
Defined.

End CacheOrdering.

Section CacheRetry.

Import QueryCache.

Implicit Types (c : state) (k : RequestKey) (e : QueryEntry) (l : list (nat * nat)).

Lemma filter_all {A : Type} (P : A -> Prop) `{forall x, Decision (P x)} (xs : list A) :
  Forall P xs -> filter P xs = xs.
Proof.
  induction 1 as [|x xs Hx _ IH]; [reflexivity|].
  rewrite filter_cons. destruct (decide (P x)); [now rewrite IH | contradiction].
Qed.

Lemma backoff_capped cf a : backoff cf a <= retryCap cf.
Proof. unfold backoff. lia. Qed.

Lemma backoff_doubles cf a :
  retryBase cf * 2 ^ S a <= retryCap cf -> backoff cf (S a) = 2 * backoff cf a.
Proof.
  unfold backoff. rewrite Nat.pow_succ_r'. intros H.
  rewrite !Nat.min_r by lia. lia.
Qed.

(** Retryable failures while attempts remain: each is followed by one more
    network call after the backoff delay, and the entry shows what it
    showed. *)
Lemma respond_each_retried n k (errs : list FetchError) :
  forall c e a,
    entries c !! k = Some e ->
    retry e = true ->
    attempt_of n (inflight e) = Some a ->
    Forall (fun err => retryable err = true) errs ->
    a + length errs < maxAttempts (cfg c) ->
    exists e',
      entries (respond_each n k (inl <$> errs) c) !! k = Some e'
      /\ attempt_of n (inflight e') = Some (a + length errs)
      /\ retry e' = true
      /\ status e' = status e /\ error e' = error e /\ data e' = data e
      /\ applied e' = applied e
      /\ cfg (respond_each n k (inl <$> errs) c) = cfg c
      /\ calls (respond_each n k (inl <$> errs) c)
         = calls c ++ (retry_call (cfg c) k n <$> seq a (length errs)).
Proof.
  induction errs as [|err errs IH]; intros c e a He Hre Ha Hall Hlen.
  - exists e. cbn. rewrite Nat.add_0_r, app_nil_r. auto 10.
  - cbn [length] in Hlen. apply Forall_cons in Hall as [Herr Hall].
    assert (Hr : retries (cfg c) e a (inl err) = true).
    { unfold retries. rewrite Hre, Herr. cbv [andb]. apply Nat.ltb_lt. lia. }
    cbn [fmap list_fmap respond_each foldl].
    change (foldl (fun c' r => respond n k r c') ?c0 ?rs) with (respond_each n k rs c0).
    rewrite (respond_retries n k (inl err) c e a He Ha Hr).
    match goal with |- context [respond_each n k _ ?c1] => set (c1' := c1) end.
    destruct (IH c1'
                {| key := key e; data := data e; error := error e; status := status e;
                   lastFetchedAt := lastFetchedAt e; observerCount := observerCount e;
                   watch := watch e; retry := retry e;
                   inflight := reattempt n (S a) (inflight e); applied := applied e |}
                (S a))
      as (e' & He' & Ha' & Hre' & Hst & Her & Hd & Hap & Hcfg & Hcalls).
    + subst c1'. cbn. apply lookup_insert_eq.
    + exact Hre.
    + cbn. eapply attempt_of_reattempt. exact Ha.
    + exact Hall.
    + subst c1'. cbn. lia.
    + exists e'. cbn in Hst, Her, Hd, Hap.
      split; [exact He'|]. split; [rewrite Ha'; f_equal; cbn; lia|].
      split; [exact Hre'|]. split; [exact Hst|]. split; [exact Her|].
      split; [exact Hd|]. split; [exact Hap|]. split; [exact Hcfg|].
      rewrite Hcalls. subst c1'. cbn. now rewrite <- app_assoc.
Qed.

(** A failure that is not taken up again settles the fetch in error. *)
Lemma respond_failure_settles n k err c e a :
  entries c !! k = Some e ->
  attempt_of n (inflight e) = Some a ->
  applied e < n ->
  retries (cfg c) e a (inl err) = false ->
  status (entry_of (respond n k (inl err) c) k) = q_error
  /\ error (entry_of (respond n k (inl err) c) k) = Some err
  /\ attempt_of n (inflight (entry_of (respond n k (inl err) c) k)) = None
  /\ calls (respond n k (inl err) c) = calls c.
Proof.
  intros He Ha Hlt Hr.
  rewrite (respond_settles n k (inl err) c e a He Ha Hr), entry_of_put.
  unfold settle. destruct (Nat.ltb_spec (applied e) n); [|lia]. cbn.
  repeat split. unfold attempt_of, without.
  destruct (find _ _) as [p|] eqn:Hf; [|reflexivity].
  apply find_some in Hf as [Hin Hp]. apply list_elem_of_In, list_elem_of_filter in Hin.
  apply Nat.eqb_eq in Hp. tauto.
Qed.

(** C6. A fetch with [retry] on, at its first attempt.  As long as attempts
    remain, each NetworkError or NotFoundError is answered by one more
    network call after a delay that starts at [retryBase], doubles and is
    capped at [retryCap], and the entry does not show an error.  When the
    attempts are used up the failure settles the entry in error, so one
    fetch makes at most [maxAttempts] network calls.  A RejectedError is never
    taken up again: whenever it arrives it settles the entry with that very
    error and no further call. *)
Theorem retry_backs_off_and_is_bounded (c : state) (k : RequestKey) (e : QueryEntry)
    (n : nat) (errs : list FetchError) (err : FetchError) :
  entries c !! k = Some e ->
  retry e = true ->
  attempt_of n (inflight e) = Some 0 ->
  applied e < n ->
  Forall (fun x => x = NetworkError \/ x = NotFoundError) errs ->
  length errs < maxAttempts (cfg c) ->
  let retried := respond_each n k (inl <$> errs) c in
  let rejected := respond n k (inl RejectedError) retried in
  let exhausted := respond n k (inl err) retried in
  calls retried = calls c ++ (retry_call (cfg c) k n <$> seq 0 (length errs))
  /\ calls_of n retried
     = calls_of n c ++ (retry_call (cfg c) k n <$> seq 0 (length errs))
  /\ status (entry_of retried k) = status e
  /\ error (entry_of retried k) = error e
  /\ data (entry_of retried k) = data e
  /\ (forall i, backoff (cfg c) i <= retryCap (cfg c))
  /\ (forall i, retryBase (cfg c) * 2 ^ S i <= retryCap (cfg c) ->
                backoff (cfg c) (S i) = 2 * backoff (cfg c) i)
  /\ backoff (cfg c) 0 = Nat.min (retryCap (cfg c)) (retryBase (cfg c))
  /\ status (entry_of rejected k) = q_error
  /\ error (entry_of rejected k) = Some RejectedError
  /\ calls rejected = calls retried
  /\ (S (length errs) = maxAttempts (cfg c) ->
      status (entry_of exhausted k) = q_error
      /\ error (entry_of exhausted k) = Some err
      /\ calls exhausted = calls retried
      /\ length (calls_of n exhausted) + 1 = length (calls_of n c) + maxAttempts (cfg c)).
Proof.
  intros He Hre Ha Hlt Hall Hlen retried rejected exhausted.
  assert (Hall' : Forall (fun x => retryable x = true) errs).
  { eapply Forall_impl; [exact Hall|]. now intros x [-> | ->]. }
  destruct (respond_each_retried n k errs c e 0 He Hre Ha Hall' ltac:(lia))
    as (e' & He' & Ha' & Hre' & Hst & Her & Hd & Hap & Hcfg & Hcalls).
  fold retried in He', Hcfg, Hcalls.
  rewrite (entry_of_lookup _ _ _ He').
  assert (Hof : calls_of n retried
                = calls_of n c ++ (retry_call (cfg c) k n <$> seq 0 (length errs))).
  { unfold calls_of. rewrite Hcalls, filter_app. f_equal.
    apply filter_all, Forall_fmap, Forall_forall. intros i _. reflexivity. }
  split; [exact Hcalls|]. split; [exact Hof|].
  split; [exact Hst|]. split; [exact Her|]. split; [exact Hd|].
  split; [intros i; apply backoff_capped|].
  split; [intros i; apply backoff_doubles|].
  split; [unfold backoff; now rewrite Nat.pow_0_r, Nat.mul_1_r|].
  destruct (respond_failure_settles n k RejectedError retried e' _ He' Ha' ltac:(lia))
    as (Hs1 & He1 & _ & Hc1).
  { unfold retries. cbn [retryable]. now rewrite andb_false_r. }
  split; [exact Hs1|]. split; [exact He1|]. split; [exact Hc1|].
  intros Hmax.
  destruct (respond_failure_settles n k err retried e' _ He' Ha' ltac:(lia))
    as (Hs2 & He2 & _ & Hc2).
  { unfold retries. rewrite Hcfg.
    destruct (Nat.ltb_spec (S (0 + length errs)) (maxAttempts (cfg c)));
      [cbn in *; lia | now rewrite andb_false_r]. }
  split; [exact Hs2|]. split; [exact He2|]. split; [exact Hc2|].
  unfold calls_of in *. fold exhausted in Hc2. rewrite Hc2.
  fold retried. rewrite Hof, length_app, length_fmap, length_seq. lia.
Qed.

(** C6, for the receipt of a transaction just sent: three attempts, two
    "not found" answers taken up again after 1000 and 2000 ms. *)
Lemma retry_backs_off_and_is_bounded_witness :
  let cf := {| staleTime := 0; retryBase := 1000; retryCap := 4000; maxAttempts := 3 |} in
  let k := {| rk_entity := "transactionReceipt"; rk_account := None;
              rk_params := [Some "0xABC"] |} in
  let o := {| opt_watch := true; opt_retry := true; opt_enabled := true |} in
  let c := snd (getOrFetch k o (init cf)) in
  let errs := [NotFoundError; NotFoundError] in
  (entries c !! k = Some (entry_of c k)
   /\ retry (entry_of c k) = true
   /\ attempt_of 1 (inflight (entry_of c k)) = Some 0
   /\ applied (entry_of c k) < 1
   /\ Forall (fun x => x = NetworkError \/ x = NotFoundError) errs
   /\ length errs < maxAttempts (cfg c))
  /\ calls (respond_each 1 k (inl <$> errs) c)
     = calls c ++ [{| nc_key := k; nc_fetch := 1; nc_attempt := 1; nc_delay := 1000 |};
                   {| nc_key := k; nc_fetch := 1; nc_attempt := 2; nc_delay := 2000 |}]
  /\ status (entry_of (respond_each 1 k (inl <$> errs) c) k) = q_loading
  /\ status (entry_of (respond 1 k (inl NetworkError) (respond_each 1 k (inl <$> errs) c)) k)
     = q_error
  /\ length (calls_of 1 (respond 1 k (inl NetworkError) (respond_each 1 k (inl <$> errs) c)))
     + 1 = length (calls_of 1 c) + 3.
Proof.
  intros cf k o c errs.
  assert (He : entries c !! k = Some (entry_of c k)) by (vm_compute; reflexivity).
  assert (Hre : retry (entry_of c k) = true) by (vm_compute; reflexivity).
  assert (Ha : attempt_of 1 (inflight (entry_of c k)) = Some 0) by (vm_compute; reflexivity).
  assert (Hlt : applied (entry_of c k) < 1) by (vm_compute; lia).
  assert (Hall : Forall (fun x => x = NetworkError \/ x = NotFoundError) errs)
    by (repeat constructor; right; reflexivity).
  assert (Hlen : length errs < maxAttempts (cfg c)) by (vm_compute; lia).
  split; [auto 10|].
  pose proof (retry_backs_off_and_is_bounded c k (entry_of c k) 1 errs NetworkError
                He Hre Ha Hlt Hall Hlen) as H.
  cbv zeta in H.
  destruct H as (Hcalls & _ & Hst & _ & _ & _ & _ & _ & _ & _ & _ & Hex).
  split; [exact Hcalls|]. split; [rewrite Hst; vm_compute; reflexivity|].
  destruct (Hex eq_refl) as (Hs & _ & _ & Hn).
  split; [exact Hs | exact Hn].
Defined.

End CacheRetry.


(** * Further properties of the code *)

(** ** The connector helpers *)

(** The two helpers build connectors that differ in id and in name and share
    the empty icon. *)
Lemma argent_braavos_distinct :
  ic_id (ic_options argent) <> ic_id (ic_options braavos)
  /\ ic_name (ic_options argent) <> ic_name (ic_options braavos)
  /\ ic_icon (ic_options argent) = ic_icon (ic_options braavos).
Proof. repeat split; discriminate. Qed.

(** ** What the mutation function sends *)

(** X1. Whatever variables [write] is given and whatever the network
    answers, the mutation function hands the network at most one request,
    and a request it hands over carries the hook's own account, calls (never
    empty), ABIs and options: calls passed to [write] are never sent. *)
Theorem mutationFn_sends_only_the_props (account : option AccountInterface)
    (calls : option (list Call)) (abis : option (list Abi))
    (options : option InvocationsDetails) (vars vars' : ContractWriteVariables)
    (answers : list ExecuteAnswer) :
  let sent := fst (run_task (mutationFn account calls abis options vars) answers) in
  length sent <= 1
  /\ Forall (fun r => account = Some (req_account r)
                      /\ calls = Some (req_calls r)
                      /\ req_calls r <> []
                      /\ req_abis r = abis
                      /\ req_options r = options) sent
  /\ run_task (mutationFn account calls abis options vars') answers
     = run_task (mutationFn account calls abis options vars) answers.
Proof.
  intros sent. subst sent.
  destruct account as [acc|]; [|cbn; auto].
  destruct calls as [[|c cs]|].
  - cbn. auto.
  - rewrite mutationFn_executes.
    destruct answers as [|a rest]; cbn;
      (split; [lia|]); (split; [|reflexivity]);
      repeat constructor; discriminate.
  - cbn. auto.
Qed.

(** ** The transaction manager demo *)

(** X5. Hashes are only ever appended: after any series of [add] calls,
    each taken from any render of the hook (also a stale one), the atom holds
    its former value followed by the added hashes in the order of the calls;
    nothing is dropped, reordered or merged, so a hash added twice is there
    twice. *)
Theorem add_appends_in_order (adds : list (list string * string)) (value : list string) :
  foldl (fun v (call : list string * string) =>
           add (useTransactionManager (fst call)) (snd call) v) value adds
  = value ++ (snd <$> adds).
Proof.
  revert value. induction adds as [|[stale h] adds IH]; intros value; cbn.
  - now rewrite app_nil_r.
  - rewrite IH. cbn. now rewrite <- app_assoc.
Qed.

(** X6. [submitTx] records a transaction exactly when one was sent and
    accepted: with an account, a non-empty call list and a response from
    [execute], the response's hash is appended to the list; without an
    account, without calls, or when [execute] rejects, the list is left as
    it was.  In every case the former list is kept. *)
Theorem submitTx_records_what_was_sent (account : option AccountInterface)
    (calls : option (list Call)) (abis : option (list Abi))
    (options : option InvocationsDetails) (vars : ContractWriteVariables)
    (answer : ExecuteAnswer) (rest : list ExecuteAnswer) (stale value : list string) :
  exists written,
    snd (run_task (mutationFn account calls abis options vars) (answer :: rest))
    = Some written
    /\ submitTx (useTransactionManager stale) written value
       = match account, calls, answer with
         | Some _, Some (_ :: _), inr tx => value ++ [transaction_hash tx]
         | _, _, _ => value
         end.
Proof.
  destruct account as [acc|].
  2:{ exists (inl (Error "account is required")). cbn. split; reflexivity. }
  destruct calls as [[|c cs]|].
  - exists (inl (Error "calls are required")). split; reflexivity.
  - exists answer. rewrite mutationFn_executes. cbn.
    split; [reflexivity|]. destruct answer; reflexivity.
  - exists (inl (Error "calls are required")). split; reflexivity.
Qed.

(** ** The send-transaction demo *)

Lemma setCount_bounds (c : Z) (click : CountClick) :
  (0 <= c <= MAX_EXACT_INTEGER)%Z ->
  (0 <= setCount c click <= MAX_EXACT_INTEGER)%Z /\ (setCount c click <= c + 1)%Z.
Proof.
  intros Hc. destruct click; cbn [setCount].
  - lia.
  - destruct (Z.ltb_spec c MAX_EXACT_INTEGER); lia.
Qed.

Lemma foldl_setCount_bounds (clicks : list CountClick) (c : Z) :
  (0 <= c <= MAX_EXACT_INTEGER)%Z ->
  (0 <= foldl setCount c clicks <= MAX_EXACT_INTEGER)%Z
  /\ (foldl setCount c clicks <= c + Z.of_nat (length clicks))%Z.
Proof.
  revert c. induction clicks as [|click clicks IH]; intros c Hc; cbn [foldl length].
  - lia.
  - destruct (setCount_bounds c click Hc) as [Hin Hstep].
    destruct (IH (setCount c click) Hin) as [IH1 IH2]. lia.
Qed.

(** X8. However the two buttons are clicked, the counter stays an integer
    between zero and 2^53 and never exceeds one plus the number of clicks.
    At zero the minus button leaves it at zero; below 2^53 the plus button
    adds one, and at 2^53, where a JavaScript number no longer tells [c + 1]
    from [c], it leaves the counter where it is. *)
Theorem count_stays_in_range (clicks : list CountClick) :
  (0 <= count_after clicks <= MAX_EXACT_INTEGER)%Z
  /\ (count_after clicks <= 1 + Z.of_nat (length clicks))%Z
  /\ (count_after clicks = 0%Z -> count_after (clicks ++ [Minus]) = 0%Z)
  /\ ((count_after clicks < MAX_EXACT_INTEGER)%Z ->
      count_after (clicks ++ [Plus]) = (count_after clicks + 1)%Z)
  /\ (count_after clicks = MAX_EXACT_INTEGER ->
      count_after (clicks ++ [Plus]) = MAX_EXACT_INTEGER).
Proof.
  unfold count_after.
  destruct (foldl_setCount_bounds clicks count_init) as [Hin Hlen].
  { unfold count_init, MAX_EXACT_INTEGER. lia. }
  split; [exact Hin|]. split; [exact Hlen|].
  rewrite !foldl_app. cbn [foldl setCount].
  split; [|split].
  - intros H. rewrite H. reflexivity.
  - intros H. apply Z.ltb_lt in H. rewrite H. reflexivity.
  - intros H. rewrite H. reflexivity.
Qed.

Section SendTransactionProperties.

Context {Uint256 : Type} (bnToUint256 : Z -> Uint256).

(** The three ways the memo ends: without an address or a contract it is
    the empty list; with both and a counter above 2^32 - 1 it throws; with
    both and a counter up to there it is the list of transfers. *)
Lemma sendTransaction_calls_cases (address : option string) (contract : option Contract)
    (count : Z) :
  (truthy address = false \/ contract = None ->
   sendTransaction_calls bnToUint256 address contract count = inr [])
  /\ (forall a c,
        address = Some a -> contract = Some c -> a <> "" ->
        sendTransaction_calls bnToUint256 address contract count
        = if (MAX_ARRAY_LENGTH <? count)%Z then inl (RangeError "Invalid array length")
          else inr ((fun i => populate_transfer c a (bnToUint256 (Z.of_nat i)))
                      <$> seq 0 (Z.to_nat count))).
Proof.
  unfold sendTransaction_calls. split.
  - intros [H | ->].
    + now rewrite H.
    + destruct (negb (truthy address)); [reflexivity|]. now destruct address.
  - intros a c -> -> Hne. cbn [truthy].
    destruct (String.eqb_spec a ""); [contradiction | reflexivity].
Qed.

Lemma truthy_Some (address : option string) :
  truthy address = true -> exists a, address = Some a /\ a <> "".
Proof.
  destruct address as [a|]; cbn [truthy]; [|discriminate].
  destruct (String.eqb_spec a ""); [discriminate|]. eauto.
Qed.

(** X7. With an address, a contract and a counter above 2^32 - 1 the demo's
    memo throws a RangeError and there is no call list.  In every other case
    there is one, with one transfer per unit of the counter, the [i]-th being
    the transfer of [i] to the connected address; it is empty as soon as the
    address is undefined or the empty string, the contract is missing, or the
    counter is not positive. *)
Theorem sendTransaction_calls_shape (address : option string) (contract : option Contract)
    (count : Z) :
  (truthy address = true -> contract <> None -> (MAX_ARRAY_LENGTH < count)%Z ->
   sendTransaction_calls bnToUint256 address contract count
   = inl {| err_name := "RangeError"; err_message := "Invalid array length" |})
  /\ (truthy address = false \/ contract = None \/ (count <= MAX_ARRAY_LENGTH)%Z ->
      exists calls,
        sendTransaction_calls bnToUint256 address contract count = inr calls
        /\ length calls
           = (if truthy address && bool_decide (contract <> None) then Z.to_nat count else 0)
        /\ (forall a c (i : nat),
              address = Some a -> contract = Some c -> a <> "" ->
              (Z.of_nat i < count)%Z ->
              calls !! i = Some (populate_transfer c a (bnToUint256 (Z.of_nat i))))
        /\ (calls = [] <-> truthy address = false \/ contract = None \/ (count <= 0)%Z)).
Proof.
  destruct (sendTransaction_calls_cases address contract count) as [Hnone Hboth].
  split.
  - intros Ht Hc Hbig. destruct (truthy_Some address Ht) as (a & -> & Hne).
    destruct contract as [c|]; [|contradiction].
    rewrite (Hboth a c eq_refl eq_refl Hne).
    destruct (Z.ltb_spec MAX_ARRAY_LENGTH count); [reflexivity | lia].
  - intros Hcase.
    destruct (truthy address) eqn:Ht.
    2:{ exists []. split; [apply Hnone; now left|]. split; [reflexivity|].
        split; [intros a c i -> _ Hne; cbn in Ht;
                destruct (String.eqb_spec a ""); [contradiction | discriminate]|].
        split; auto. }
    destruct contract as [c|].
    2:{ exists []. split; [apply Hnone; now right|]. split; [reflexivity|].
        split; [discriminate|]. split; auto. }
    destruct (truthy_Some address Ht) as (a & -> & Hne).
    assert (Hsmall : (count <= MAX_ARRAY_LENGTH)%Z)
      by (destruct Hcase as [H | [H | H]]; [discriminate | discriminate | exact H]).
    eexists. split.
    { rewrite (Hboth a c eq_refl eq_refl Hne).
      destruct (Z.ltb_spec MAX_ARRAY_LENGTH count); [lia | reflexivity]. }
    split; [|split].
    + rewrite length_fmap, length_seq. rewrite bool_decide_eq_true_2 by discriminate.
      reflexivity.
    + intros a' c' i [= <-] [= <-] _ Hi.
      rewrite list_lookup_fmap, lookup_seq_lt by lia. reflexivity.
    + split.
      * intros H. right. right. apply (f_equal length) in H.
        rewrite length_fmap, length_seq in H. cbn in H. lia.
      * intros [H | [H | H]]; [discriminate | discriminate|].
        replace (Z.to_nat count) with 0 by lia. reflexivity.
Qed.

(** X9. Sending from the demo: once the counter is down at zero (or the
    address or the contract is missing) the call list is empty and the
    mutation function throws "calls are required" although an account is
    connected; with an address, a contract and a counter from 1 to 2^32 - 1
    it hands [execute] one request with as many calls as the counter says.
    One click on minus from the start is enough to get to zero. *)
Theorem send_needs_a_positive_count (acc : AccountInterface) (address : option string)
    (contract : option Contract) (count : Z) (abis : option (list Abi))
    (options : option InvocationsDetails) (vars : ContractWriteVariables)
    (answers : list ExecuteAnswer) :
  ((count <= 0)%Z \/ truthy address = false \/ contract = None ->
   sendTransaction_calls bnToUint256 address contract count = inr []
   /\ mutationFn (Some acc) (Some []) abis options vars
      = throw (Error "calls are required"))
  /\ ((0 < count <= MAX_ARRAY_LENGTH)%Z -> truthy address = true -> contract <> None ->
      exists calls req,
        sendTransaction_calls bnToUint256 address contract count = inr calls
        /\ fst (run_task (mutationFn (Some acc) (Some calls) abis options vars) answers)
           = [req]
        /\ req_calls req = calls
        /\ length calls = Z.to_nat count)
  /\ count_after [Minus] = 0%Z.
Proof.
  destruct (sendTransaction_calls_cases address contract count) as [Hnone Hboth].
  split; [|split; [|reflexivity]].
  - intros H. split; [|apply mutationFn_no_calls; now right].
    destruct (truthy address) eqn:Ht; [|apply Hnone; now left].
    destruct contract as [c|]; [|apply Hnone; now right].
    destruct (truthy_Some address Ht) as (a & -> & Hne).
    rewrite (Hboth a c eq_refl eq_refl Hne).
    destruct H as [H | [H | H]]; [|discriminate | discriminate].
    destruct (Z.ltb_spec MAX_ARRAY_LENGTH count); [unfold MAX_ARRAY_LENGTH in *; lia|].
    replace (Z.to_nat count) with 0 by lia. reflexivity.
  - intros [Hpos Hsmall] Ht Hc.
    destruct (truthy_Some address Ht) as (a & -> & Hne).
    destruct contract as [c|]; [|contradiction].
    rewrite (Hboth a c eq_refl eq_refl Hne).
    destruct (Z.ltb_spec MAX_ARRAY_LENGTH count); [lia|].
    set (calls := (fun i => populate_transfer c a (bnToUint256 (Z.of_nat i)))
                    <$> seq 0 (Z.to_nat count)).
    assert (Hlen : length calls = Z.to_nat count)
      by (subst calls; now rewrite length_fmap, length_seq).
    exists calls. destruct calls as [|c0 cs] eqn:Hcalls; [cbn in Hlen; lia|].
    rewrite mutationFn_executes.
    eexists. split; [reflexivity|].
    split; [destruct answers; reflexivity|]. split; [reflexivity | exact Hlen].
Qed.

End SendTransactionProperties.

(** ** useNetwork *)

Section NetworkProperties.

Context {Chain : Type} (chainById : string -> option Chain).

Lemma useNetwork_resolved_pending (id : nat) (chainId : string) (s : NetworkState) :
  id ∈ ns_pending s ->
  useNetwork_resolved chainById id chainId s
  = {| ns_chain := chainById chainId;
       ns_pending := filter (fun i => i <> id) (ns_pending s);
       ns_next := ns_next s |}.
Proof. intros H. unfold useNetwork_resolved. now rewrite bool_decide_eq_true_2. Qed.

(** X3. The library changes twice, so two [getChainId()] are under way.
    The chain shown in the end is the one of the answer that arrives last,
    not of the library set last: if the second library's answer arrives first
    and the first library's after it, the hook shows the first library's
    chain.  Until an answer arrives the chain shown does not change. *)
Theorem useNetwork_last_answer_wins (s : NetworkState (Chain := Chain))
    (libA libB : ProviderInterface) (ca cb : string) :
  let s2 := useNetwork_effect (Some libB) (useNetwork_effect (Some libA) s) in
  let a := ns_next s in
  let b := S (ns_next s) in
  chain (useNetwork (useNetwork_resolved chainById a ca
                       (useNetwork_resolved chainById b cb s2))) = chainById ca
  /\ chain (useNetwork (useNetwork_resolved chainById b cb
                          (useNetwork_resolved chainById a ca s2))) = chainById cb
  /\ chain (useNetwork s2) = chain (useNetwork s).
Proof.
  intros s2 a b.
  assert (Ha : a ∈ ns_pending s2).
  { subst s2 a. cbn. rewrite !elem_of_app, !list_elem_of_singleton. auto. }
  assert (Hb : b ∈ ns_pending s2).
  { subst s2 b. cbn. rewrite !elem_of_app, !list_elem_of_singleton. auto. }
  assert (Hab : a <> b) by (subst a b; lia).
  split; [|split; [|reflexivity]].
  - rewrite (useNetwork_resolved_pending b cb s2 Hb).
    rewrite useNetwork_resolved_pending; [reflexivity|].
    cbn. apply list_elem_of_filter. auto.
  - rewrite (useNetwork_resolved_pending a ca s2 Ha).
    rewrite useNetwork_resolved_pending; [reflexivity|].
    cbn. apply list_elem_of_filter. auto.
Qed.

(** X4. Losing the library resets the chain to [undefined], but not for
    good: a [getChainId()] still under way at that moment sets the chain
    again when it is answered.  A rejected [getChainId()] changes nothing
    that is shown. *)
Theorem useNetwork_reset_is_not_final (s : NetworkState (Chain := Chain)) :
  chain (useNetwork (useNetwork_effect None s)) = None
  /\ (forall id chainId,
        id ∈ ns_pending s ->
        chain (useNetwork (useNetwork_resolved chainById id chainId
                             (useNetwork_effect None s))) = chainById chainId)
  /\ (forall id, chain (useNetwork (useNetwork_rejected id s)) = chain (useNetwork s)).
Proof.
  split; [reflexivity|]. split; [|reflexivity].
  intros id chainId Hid. now rewrite useNetwork_resolved_pending.
Qed.

Lemma Forall_filter_sub {A : Type} (P Q : A -> Prop) `{forall x, Decision (Q x)}
    (xs : list A) :
  Forall P xs -> Forall P (filter Q xs).
Proof.
  rewrite !Forall_forall. intros HP x Hx. apply HP.
  now apply list_elem_of_filter in Hx as [_ Hx].
Qed.

Lemma library_set_singleton (ev : NetworkEvent) :
  length (filter (fun e => is_library_set e = true) [ev])
  = if is_library_set ev then 1 else 0.
Proof.
  rewrite filter_cons, filter_nil.
  destruct (decide (is_library_set ev = true)) as [-> | Hne]; [reflexivity|].
  now destruct (is_library_set ev).
Qed.

(** X11. Over any history of a mounted [useNetwork]: [getChainId()] was
    called once per change to a defined library and never otherwise; the
    promises under way are distinct and were all issued; and the chain shown
    is either none or [chainById] of a chain id that some answer carried. *)
Theorem useNetwork_history (evs : list NetworkEvent) :
  let s := useNetwork_run chainById evs useNetwork_mount in
  ns_next s = length (filter (fun ev => is_library_set ev = true) evs)
  /\ NoDup (ns_pending s)
  /\ Forall (fun id => id < ns_next s) (ns_pending s)
  /\ (ns_chain s = None
      \/ exists id chainId, ChainIdResolved id chainId ∈ evs /\ ns_chain s = chainById chainId).
Proof.
  induction evs as [|ev evs IH] using rev_ind.
  - cbn. repeat split; [constructor | constructor | now left].
  - cbv zeta in *. unfold useNetwork_run in *. rewrite foldl_app. cbn [foldl].
    set (s := foldl (useNetwork_step chainById) useNetwork_mount evs) in *.
    destruct IH as (Hn & Hnd & Hlt & Hch).
    rewrite filter_app, length_app, library_set_singleton.
    assert (Hch' : forall c, (c = None \/ exists id chainId,
                                ChainIdResolved id chainId ∈ evs /\ c = chainById chainId)
                             -> c = None \/ exists id chainId,
                                  ChainIdResolved id chainId ∈ evs ++ [ev]
                                  /\ c = chainById chainId).
    { intros c [H | (id & cid & Hin & H)]; [now left|].
      right. exists id, cid. split; [apply elem_of_app; now left | exact H]. }
    destruct ev as [[lib|] | id cid | id]; cbn.
    + split; [lia|]. split.
      { apply NoDup_app. split; [exact Hnd|]. split; [|apply NoDup_singleton].
        intros x Hx Hx'. apply list_elem_of_singleton in Hx'. subst x.
        rewrite Forall_forall in Hlt. specialize (Hlt _ Hx). lia. }
      split; [|now apply Hch'].
      apply Forall_app. split; [|repeat constructor].
      eapply Forall_impl; [exact Hlt|]. cbn. intros; lia.
    + split; [lia|]. split; [exact Hnd|]. split; [exact Hlt | now left].
    + unfold useNetwork_resolved. case_bool_decide as Hin; cbn.
      * split; [lia|]. split; [now apply NoDup_filter|].
        split; [now apply Forall_filter_sub|].
        right. exists id, cid.
        split; [apply elem_of_app; right; now apply list_elem_of_singleton | reflexivity].
      * split; [lia|]. split; [exact Hnd|]. split; [exact Hlt | now apply Hch'].
    + split; [lia|]. split; [now apply NoDup_filter|].
      split; [now apply Forall_filter_sub | now apply Hch'].
Qed.

End NetworkProperties.

(** ** shortAddress *)

Lemma length_append (s t : string) :
  String.length (s +:+ t) = String.length s + String.length t.
Proof. induction s as [|c s IH]; simpl; [reflexivity | now rewrite IH]. Qed.

Lemma append_assoc (x y z : string) : (x +:+ y) +:+ z = x +:+ y +:+ z.
Proof.
  induction x as [|c x IH]; [reflexivity|].
  change (String c ((x +:+ y) +:+ z) = String c (x +:+ y +:+ z)). now f_equal.
Qed.

Lemma length_substring (s : string) :
  forall n m, String.length (String.substring n m s) = Nat.min m (String.length s - n).
Proof.
  induction s as [|c s IH]; intros [|n] [|m]; simpl; try reflexivity.
  - now rewrite IH, Nat.sub_0_r.
  - apply IH.
  - apply IH.
Qed.

Lemma substring_all (s : string) : String.substring 0 (String.length s) s = s.
Proof. induction s as [|c s IH]; simpl; [reflexivity | now rewrite IH]. Qed.

Lemma substring_split (s : string) :
  forall n, n <= String.length s ->
    String.substring 0 n s +:+ String.substring n (String.length s - n) s = s.
Proof.
  induction s as [|c s IH]; intros [|n] Hn; simpl in *; try reflexivity; try lia.
  - change ("" +:+ ?x) with x. f_equal. apply substring_all.
  - change (String c (String.substring 0 n s
                      +:+ String.substring n (String.length s - n) s) = String c s).
    f_equal. apply IH. lia.
Qed.

Lemma substring_of_prefix (s : string) :
  forall n m, n <= m ->
    String.substring 0 n (String.substring 0 m s) = String.substring 0 n s.
Proof.
  induction s as [|c s IH]; intros [|n] [|m] Hn; simpl; try reflexivity; try lia.
  f_equal. apply IH. lia.
Qed.

Lemma slice_head (a : string) :
  slice a 0 (Some 8%Z) = String.substring 0 (Nat.min 8 (String.length a)) a.
Proof.
  unfold slice, slice_index. cbn [Z.ltb Z.compare]. f_equal. lia.
Qed.

Lemma slice_tail (a : string) :
  slice a (-4) None
  = String.substring (String.length a - 4) (Nat.min 4 (String.length a)) a.
Proof.
  unfold slice, slice_index. cbn [Z.ltb Z.compare]. f_equal; lia.
Qed.

(** X10. For a connected address the short form is its first eight
    characters, three dots and its last four: it is never longer than
    fifteen characters, and for an address of twelve characters or more the
    two pieces are a prefix and a suffix of the address that do not overlap.
    An undefined or empty address gives "not connected". *)
Theorem shortAddress_shape (a : string) :
  a <> "" ->
  String.length (shortAddress (Some a))
  = Nat.min 8 (String.length a) + 3 + Nat.min 4 (String.length a)
  /\ String.length (shortAddress (Some a)) <= 15
  /\ (12 <= String.length a ->
      exists p m q,
        a = p +:+ m +:+ q
        /\ String.length p = 8 /\ String.length q = 4
        /\ shortAddress (Some a) = p +:+ "..." +:+ q)
  /\ shortAddress None = "not connected"
  /\ shortAddress (Some "") = "not connected".
Proof.
  intros Hne.
  assert (Hs : shortAddress (Some a)
               = slice a 0 (Some 8%Z) +:+ "..." +:+ slice a (-4) None).
  { unfold shortAddress, truthy. now destruct (String.eqb_spec a ""). }
  assert (Hlen : String.length (shortAddress (Some a))
                 = Nat.min 8 (String.length a) + 3 + Nat.min 4 (String.length a)).
  { rewrite Hs, slice_head, slice_tail, !length_append, !length_substring.
    change (String.length "...") with 3. lia. }
  split; [exact Hlen|]. split; [lia|]. split; [|split; reflexivity].
  intros H12. set (n := String.length a) in *.
  set (u := String.substring 0 (n - 4) a).
  assert (Hu : String.length u = n - 4) by (subst u; rewrite length_substring; lia).
  exists (String.substring 0 8 a), (String.substring 8 (n - 12) u),
         (String.substring (n - 4) 4 a).
  split; [|split; [|split]].
  - rewrite <- (substring_of_prefix a 8 (n - 4)) by lia. fold u.
    replace (n - 12) with (String.length u - 8) by lia.
    pose proof (substring_split u 8 ltac:(lia)) as Hsplit.
    pose proof (substring_split a (n - 4) ltac:(lia)) as Hall. fold n u in Hall.
    replace (n - (n - 4)) with 4 in Hall by lia.
    rewrite <- Hall at 1. rewrite <- Hsplit at 1.
    apply append_assoc.
  - rewrite length_substring. fold n. lia.
  - rewrite length_substring. fold n. lia.
  - rewrite Hs, slice_head, slice_tail. fold n.
    replace (Nat.min 8 n) with 8 by lia. replace (Nat.min 4 n) with 4 by lia.
    reflexivity.
Qed.

(** X10, for the ETH contract's address. *)
Lemma shortAddress_shape_witness :
  "0x049d36570d4e46f48e99674bd3fcc84644ddd6b96f7c741b1562b82f9e004dc7" <> ""
  /\ shortAddress
       (Some "0x049d36570d4e46f48e99674bd3fcc84644ddd6b96f7c741b1562b82f9e004dc7")
     = "0x049d36...4dc7"
  /\ String.length
       (shortAddress
          (Some "0x049d36570d4e46f48e99674bd3fcc84644ddd6b96f7c741b1562b82f9e004dc7"))
     <= 15.
Proof.
  split; [discriminate|]. split; [reflexivity|].
  apply (shortAddress_shape
           "0x049d36570d4e46f48e99674bd3fcc84644ddd6b96f7c741b1562b82f9e004dc7").
  discriminate.
Defined.

(** ** Funding the burner account *)

Section BurnerProperties.

Context {Uint256 : Type} (bnToUint256 : Z -> Uint256).

(** X12. The burner is marked as funded only after a transfer was really
    sent and answered: [fundAccount] stores the address exactly when the ETH
    contract, the main account and a non-empty address are all there and
    [execute] answered with a response, and then the one request made was the
    main account's transfer of the funding amount to that address.  In every
    other case no request is made or the answer is a rejection, and the
    funded address stays what it was. *)
Theorem fundAccount_marks_only_funded (eth : option (Contract (Uint256 := Uint256)))
    (mainAccount : option AccountInterface) (address fundedAddress : option string)
    (vars : ContractWriteVariables) (answer : ExecuteAnswer) (rest : list ExecuteAnswer) :
  let calls := FundBurnerAccount_calls bnToUint256 eth mainAccount address in
  let outcome := run_task (mutationFn mainAccount (Some calls) None None vars)
                          (answer :: rest) in
  exists written,
    snd outcome = Some written
    /\ fundAccount written address fundedAddress
       = match eth, mainAccount, truthy address, answer with
         | Some _, Some _, true, inr _ => address
         | _, _, _, _ => fundedAddress
         end
    /\ fst outcome
       = match eth, mainAccount, address with
         | Some c, Some acc, Some a =>
             if truthy address then
               [{| req_account := acc;
                   req_calls := [populate_transfer c a (bnToUint256 FUNDING_AMOUNT)];
                   req_abis := None; req_options := None |}]
             else []
         | _, _, _ => []
         end.
Proof.
  intros calls outcome. subst outcome calls. unfold FundBurnerAccount_calls.
  destruct mainAccount as [acc|].
  2:{ exists (inl (Error "account is required")).
      destruct eth, address; cbn; auto. }
  destruct eth as [c|].
  2:{ exists (inl (Error "calls are required")). destruct address; cbn; auto. }
  destruct address as [a|].
  2:{ exists (inl (Error "calls are required")). cbn. auto. }
  destruct (truthy (Some a)) eqn:Ht.
  - exists answer. rewrite mutationFn_executes. cbn.
    split; [reflexivity|]. split; [destruct answer; reflexivity | reflexivity].
  - exists (inl (Error "calls are required")). cbn. auto.
Qed.

End BurnerProperties.
